(** * animator.js: a synchronized multi-callback animation driver

    A shallow embedding of [src/animator.js] and of the properties of its
    frame loop.  JavaScript numbers are IEEE 754 binary64 values; they are
    modelled by Rocq's primitive floats, whose operations are specified by
    [SpecFloat].  The host's [window.requestAnimationFrame] is modelled as
    an explicit queue of frame requests, and what [Date.now()] returns is
    supplied with each event. *)

From Stdlib Require Import ZArith Zpower List Bool Lia Floats Sorted.
Import ListNotations.

Local Open Scope list_scope.

(** ** JavaScript values used by the animator *)

(** A JavaScript Number. *)
Definition number := float.

Module JS.

Local Open Scope float_scope.

(** [ToNumber] on a field that holds a Number or [null]: [null] converts
    to [+0], which is what [Date.now() - this._animationStartTime] does
    when the start time has been cleared. *)
Definition ToNumber (v : option number) : number :=
  match v with
  | Some x => x
  | None => 0
  end.

(** [Math.min] on two Numbers: NaN if either is NaN, and [-0] is smaller
    than [+0]. *)
Definition Math_min (x y : number) : number :=
  if is_nan x || is_nan y then nan
  else if x <? y then x
  else if y <? x then y
  else if get_sign x then x else y.

(** [x === y] on two Numbers: IEEE equality. *)
Definition strict_eq (x y : number) : bool := x =? y.

End JS.

(** ** The host: frame requests *)

(** The handle [window.requestAnimationFrame] returns: a non-zero integer. *)
Definition handle := positive.

(** The part of [window] the animator talks to: the requests that were made
    and are not yet dispatched, oldest first, and the next handle. *)
Record Window := mkWindow {
  pending : list handle;
  next_handle : handle
}.

(** [window.requestAnimationFrame(this._animationFrame)]: queue one more
    request and return its handle.  Nothing is cancelled. *)
Definition requestAnimationFrame (w : Window) : handle * Window :=
  (next_handle w,
   mkWindow (pending w ++ [next_handle w]) (Pos.succ (next_handle w))).

(** ** Callbacks *)

(** A registered callback is a function object; the model keeps its
    identity.  Callbacks are taken not to call back into the animator. *)
Definition callback := nat.

(** One invocation [callback(coefficient)]. *)
Definition call := (callback * number)%type.

(** How a function body ends. *)
Inductive completion := Normal | Throw.

(** ** The animator object *)

Record Animator := mkAnimator {
  _duration : number;
  _callbacks : list callback;
  _animationStartTime : option number;
  _requestAnimationFrameID : option handle
}.

(** [new Animator()] *)
Definition Animator_new : Animator :=
  mkAnimator 200%float [] None None.

(** [Animator.prototype.addCallback] *)
Definition addCallback (cb : callback) (this : Animator) : Animator :=
  mkAnimator (_duration this) (_callbacks this ++ [cb])
             (_animationStartTime this) (_requestAnimationFrameID this).

(** [Animator.prototype.setDuration] *)
Definition setDuration (duration : number) (this : Animator) : Animator :=
  mkAnimator duration (_callbacks this)
             (_animationStartTime this) (_requestAnimationFrameID this).

(** [Animator.prototype.startAnimation]; [now] is what [Date.now()]
    returns. *)
Definition startAnimation (now : number) (this : Animator) (w : Window)
  : Animator * Window :=
  let (id, w') := requestAnimationFrame w in
  (mkAnimator (_duration this) (_callbacks this) (Some now) (Some id), w').

(** [Animator.prototype._getAnimationCompletionCoefficient] *)
Definition _getAnimationCompletionCoefficient (now : number) (this : Animator)
  : number :=
  let coefficient :=
    ((now - JS.ToNumber (_animationStartTime this)) / _duration this)%float in
  JS.Math_min coefficient 1%float.

(** [Animator.prototype._afterAnimationFrame] *)
Definition _afterAnimationFrame (coefficient : number) (this : Animator)
  (w : Window) : Animator * Window :=
  if JS.strict_eq coefficient 1%float then
    (mkAnimator (_duration this) (_callbacks this) None None, w)
  else
    let (id, w') := requestAnimationFrame w in
    (mkAnimator (_duration this) (_callbacks this)
                (_animationStartTime this) (Some id), w').

(** ** The world: animator, host and the invocations made so far *)

Record World := mkWorld {
  animator : Animator;
  window : Window;
  calls : list call
}.

Definition init : World :=
  mkWorld Animator_new (mkWindow [] 1%positive) [].

(** What the environment does to the animator. *)
Inductive event :=
| CallAddCallback (cb : callback)
| CallSetDuration (duration : number)
| CallStartAnimation (now : number)
| DispatchFrame (id : handle) (now : number).

Arguments CallAddCallback cb%_nat.
Arguments CallSetDuration duration%_float.
Arguments CallStartAnimation now%_float.
Arguments DispatchFrame id%_positive now%_float.

Section Callbacks.

(** Whether the invocation that was just appended to the history ends by
    throwing.  What a callback does may depend on everything that was
    invoked before it. *)
Variable throws : list call -> bool.

(** [this._callbacks.forEach(function (callback) { callback(coefficient) })]:
    the callbacks are invoked in index order; an exception ends the
    iteration. *)
Fixpoint forEach (cbs : list callback) (coefficient : number)
  (log : list call) : completion * list call :=
  match cbs with
  | [] => (Normal, log)
  | cb :: rest =>
      let log' := log ++ [(cb, coefficient)] in
      if throws log' then (Throw, log')
      else forEach rest coefficient log'
  end.

(** [Animator.prototype._animationFrame]; an exception of a callback is
    not caught, so [_afterAnimationFrame] is not reached. *)
Definition _animationFrame (now : number) (s : World) : completion * World :=
  let coefficient := _getAnimationCompletionCoefficient now (animator s) in
  match forEach (_callbacks (animator s)) coefficient (calls s) with
  | (Throw, log) => (Throw, mkWorld (animator s) (window s) log)
  | (Normal, log) =>
      let (a, w) := _afterAnimationFrame coefficient (animator s) (window s) in
      (Normal, mkWorld a w log)
  end.

(** The host takes a pending request off its queue before it runs the
    frame. *)
Definition dispatch (id : handle) (s : World) : World :=
  mkWorld (animator s)
          (mkWindow (remove Pos.eq_dec id (pending (window s)))
                    (next_handle (window s)))
          (calls s).

(** One event; a frame is only dispatched for a pending request.  An
    exception that leaves the frame surfaces in the host and the world goes
    on as the frame left it. *)
Definition step (s : World) (e : event) : option World :=
  match e with
  | CallAddCallback cb =>
      Some (mkWorld (addCallback cb (animator s)) (window s) (calls s))
  | CallSetDuration d =>
      Some (mkWorld (setDuration d (animator s)) (window s) (calls s))
  | CallStartAnimation now =>
      let (a, w) := startAnimation now (animator s) (window s) in
      Some (mkWorld a w (calls s))
  | DispatchFrame id now =>
      if in_dec Pos.eq_dec id (pending (window s))
      then Some (snd (_animationFrame now (dispatch id s)))
      else None
  end.

Fixpoint run (s : World) (es : list event) : option World :=
  match es with
  | [] => Some s
  | e :: es' =>
      match step s e with
      | Some s' => run s' es'
      | None => None
      end
  end.

(** [startAnimation] is only called while no run is in progress. *)
Fixpoint starts_when_idle (s : World) (es : list event) : bool :=
  match es with
  | [] => true
  | e :: es' =>
      match e with
      | CallStartAnimation _ =>
          match _animationStartTime (animator s) with
          | None => true
          | Some _ => false
          end
      | _ => true
      end
      && match step s e with
         | Some s' => starts_when_idle s' es'
         | None => true
         end
  end.

End Callbacks.

(** ** Notions the properties are stated with *)

(** The quotient of elapsed time and duration, before it is clamped. *)
Definition ratio (now : number) (this : Animator) : number :=
  ((now - JS.ToNumber (_animationStartTime this)) / _duration this)%float.

(** The invocations made between two states of the world. *)
Definition new_calls (before after : World) : list call :=
  skipn (length (calls before)) (calls after).

(** The coefficients a list of invocations was given, in order. *)
Definition coefficients (l : list call) : list number := map snd l.

(** The run-state invariant of the specification, with "a frame request is
    pending" read on the host's queue. *)
Definition run_state_invariant (s : World) : Prop :=
  _animationStartTime (animator s) <> None <-> pending (window s) <> [].

(** The same with "a frame request is pending" read on the handle field. *)
Definition run_fields_invariant (s : World) : Prop :=
  _animationStartTime (animator s) <> None
  <-> _requestAnimationFrameID (animator s) <> None.

(** Start time, handle and queue move in lockstep: either all are clear, or
    the one pending request is the one the handle names. *)
Definition lockstep (s : World) : Prop :=
  match _animationStartTime (animator s),
        _requestAnimationFrameID (animator s) with
  | None, None => pending (window s) = []
  | Some _, Some h => pending (window s) = [h]
  | _, _ => False
  end.

(** Only registered callbacks have been invoked. *)
Definition calls_registered (s : World) : Prop :=
  forall cb c, In (cb, c) (calls s) -> In cb (_callbacks (animator s)).

(** No callback ever throws. *)
Definition never_throws (throws : list call -> bool) : Prop :=
  forall log, throws log = false.

(** Orders on Numbers, as propositions. *)
Definition num_le (x y : number) : Prop := (x <=? y)%float = true.
Definition num_lt (x y : number) : Prop := (x <? y)%float = true.

(** A Number in the closed interval [0, 1]. *)
Definition in_unit_interval (c : number) : Prop :=
  num_le 0%float c /\ num_le c 1%float.

(** The events of one run after its start: callbacks may be added and
    frames dispatched; the duration is not set and the animation is not
    started again.  The clock readings of the frames are finite and never
    decrease, starting from [prev]. *)
Fixpoint quiet_run (prev : number) (es : list event) : Prop :=
  match es with
  | [] => True
  | CallAddCallback _ :: es' => quiet_run prev es'
  | DispatchFrame _ now :: es' =>
      num_le prev now /\ num_lt now infinity /\ quiet_run now es'
  | _ :: _ => False
  end.

(** The coefficient of the frame at [now] of a run that started at [t0]
    and has duration [d]. *)
Definition coefficient_at (d t0 now : number) : number :=
  JS.Math_min ((now - t0) / d)%float 1%float.

(** A run in progress with duration [d] that started at [t0]: its one
    request is pending, or nothing is (the run is over, or a callback
    threw). *)
Definition in_run (d t0 : number) (s : World) : Prop :=
  _duration (animator s) = d
  /\ (pending (window s) = []
      \/ (_animationStartTime (animator s) = Some t0
          /\ exists h, pending (window s) = [h])).

(** The coefficients of [l] never decrease, lie in the unit interval and do
    not exceed [bound]. *)
Definition steady (bound : number) (l : list call) : Prop :=
  StronglySorted num_le (coefficients l)
  /\ Forall in_unit_interval (coefficients l)
  /\ Forall (fun c => num_le c bound) (coefficients l).

(** ** Scenarios the properties are tried on *)

(** Callbacks that never throw. *)
Definition quiet : list call -> bool := fun _ => false.

(** Callbacks that always throw. *)
Definition always_throws : list call -> bool := fun _ => true.

(** Callbacks of which the second invocation ever made throws. *)
Definition second_throws : list call -> bool :=
  fun log => Nat.eqb (length log) 2.

(** The scenario of the specification: duration 100, callbacks [A] and [B]
    (here [0] and [1]) registered in that order, started at time [0]; the
    host has taken the one pending request off its queue. *)
Definition scenario : World :=
  mkWorld (mkAnimator 100%float [0; 1] (Some 0%float) (Some 1%positive))
          (mkWindow [] 2%positive) [].

(** The same with the request still pending. *)
Definition scenario_pending : World :=
  mkWorld (mkAnimator 100%float [0; 1] (Some 0%float) (Some 1%positive))
          (mkWindow [1%positive] 2%positive) [].

(** ** Notions for whole lives of an animator *)

(** The callbacks a sequence of events registers, in order. *)
Fixpoint registered (es : list event) : list callback :=
  match es with
  | [] => []
  | CallAddCallback cb :: es' => cb :: registered es'
  | _ :: es' => registered es'
  end.

(** The duration in force after a sequence of events that began with
    duration [d]. *)
Fixpoint duration_after (d : number) (es : list event) : number :=
  match es with
  | [] => d
  | CallSetDuration d' :: es' => duration_after d' es'
  | _ :: es' => duration_after d es'
  end.

(** How often a sequence of events calls [startAnimation]. *)
Fixpoint starts (es : list event) : nat :=
  match es with
  | [] => 0
  | CallStartAnimation _ :: es' => S (starts es')
  | _ :: es' => starts es'
  end.

(** The handles the host has given out are told apart: the pending ones are
    distinct and older than the next one, and the handle the animator
    stores, when it stores one, is the last one given out. *)
Definition handles_tracked (s : World) : Prop :=
  NoDup (pending (window s))
  /\ Forall (fun h => (h < next_handle (window s))%positive) (pending (window s))
  /\ forall h, _requestAnimationFrameID (animator s) = Some h ->
               Pos.succ h = next_handle (window s).

(** A coefficient that does not exceed [1] (NaN does not). *)
Definition not_above_one (c : number) : Prop := (1 <? c)%float = false.

(** ** Binary64 rounding, as [SpecFloat] computes it

    The notions below describe what [binary_round_aux] does to an exact
    non-negative value [a / B * 2 ^ g] given by integers. *)

Module Binary64.

Local Open Scope Z_scope.

(** The round bit and the sticky bit of [a / B]. *)
Definition frac_r (a B : Z) : bool := B <=? 2 * (a mod B).
Definition frac_s (a B : Z) : bool :=
  negb (a mod B =? 0) && negb (2 * (a mod B) =? B).

(** [a / B] as a shift record: its integer part, round bit and sticky bit. *)
Definition grid (a B : Z) : shr_record :=
  Build_shr_record (a / B) (frac_r a B) (frac_s a B).

(** Where [a / B] lies between two consecutive integers. *)
Definition loc (a B : Z) : location :=
  if a mod B =? 0 then loc_Exact else loc_Inexact (2 * (a mod B) ?= B).

(** [a / B] rounded to the nearest integer, ties to even. *)
Definition rne (a B : Z) : Z := round_nearest_even (a / B) (loc a B).

(** The last step of [binary_round_aux]: renormalise the rounded mantissa
    and detect overflow. *)
Definition finish (s : bool) (N g : Z) : spec_float :=
  let '(mrs, e) := shr_fexp prec emax N g loc_Exact in
  match shr_m mrs with
  | Z0 => S754_zero s
  | Zpos m => if e <=? emax - prec then S754_finite s m e else S754_infinity s
  | Zneg _ => S754_nan
  end.

Definition p53 : Z := 9007199254740992.
Definition p52 : Z := 4503599627370496.

(** [a / B * 2 ^ g] is presented at the exponent binary64 gives it. *)
Definition NF (a B g : Z) : Prop :=
  0 <= a /\ 0 < B /\ fexp prec emax (Zdigits2 (a / B) + g) = g.

(** [n1 / d1 * 2 ^ z1 <= n2 / d2 * 2 ^ z2], stated on integers. *)
Definition qle (n1 d1 z1 n2 d2 z2 : Z) : Prop :=
  n1 * d2 * 2 ^ (z1 - Z.min z1 z2) <= n2 * d1 * 2 ^ (z2 - Z.min z1 z2).

(** [a / B * 2 ^ g] and [n / d * 2 ^ z] are the same value. *)
Definition presents (a B g n d z : Z) : Prop :=
  exists s k, 0 <= s /\ 0 <= k /\ a = n * 2 ^ s /\ B = d * 2 ^ k /\ g + s - k = z.

Definition SFzero : spec_float := S754_zero false.
Definition SFone : spec_float := S754_finite false 4503599627370496 (-52).
Definition SFinf : spec_float := S754_infinity false.

(** The largest number below [1]. *)
Definition SFpred_one : spec_float :=
  S754_finite false 9007199254740991 (-53).

End Binary64.

(** * Proofs *)

(** ** Rounding is monotone *)

Module Binary64Facts.

Import Binary64.
Local Open Scope Z_scope.

(** Case analysis on the integer comparisons of the goal. *)
Ltac zbool :=
  repeat match goal with
  | |- context [Z.leb ?x ?y] => destruct (Z.leb_spec x y)
  | |- context [Z.eqb ?x ?y] => destruct (Z.eqb_spec x y)
  | |- context [Z.ltb ?x ?y] => destruct (Z.ltb_spec x y)
  end; cbn [negb andb orb]; try reflexivity; try lia.

(** [grid] and [loc] are the two views [SpecFloat] has of a position. *)
Lemma grid_loc a B : 0 < B -> shr_record_of_loc (a / B) (loc a B) = grid a B.
Proof.
  intros HB. unfold loc, grid, frac_r, frac_s.
  pose proof (Z.mod_pos_bound a B HB) as Hr.
  destruct (Z.eqb_spec (a mod B) 0) as [E|E].
  - cbn [shr_record_of_loc negb andb]. f_equal. zbool.
  - destruct (Z.compare_spec (2 * (a mod B)) B) as [C|C|C];
      cbn [shr_record_of_loc]; f_equal; zbool.
Qed.

Lemma loc_grid a B : 0 < B -> loc_of_shr_record (grid a B) = loc a B.
Proof.
  intros HB. rewrite <- grid_loc by assumption.
  destruct (loc a B) as [|[| |]]; reflexivity.
Qed.

Lemma new_location_loc a b : 0 < b -> new_location b (a mod b) = loc a b.
Proof.
  intros Hb. pose proof (Z.mod_pos_bound a b Hb) as Hr.
  unfold new_location, new_location_even, new_location_odd, loc.
  destruct (Z.even b) eqn:Ev; destruct (Z.eqb_spec (a mod b) 0); try reflexivity.
  f_equal.
  assert (Hodd : Z.odd b = true) by (rewrite <- Z.negb_even, Ev; reflexivity).
  apply Z.odd_spec in Hodd. destruct Hodd as [c Hc].
  destruct (Z.compare_spec (2 * (a mod b) + 1) b);
    destruct (Z.compare_spec (2 * (a mod b)) b); try reflexivity; lia.
Qed.

(** One right shift doubles the denominator. *)
Lemma shr_1_nonneg m r s : 0 <= m ->
  shr_1 (Build_shr_record m r s) = Build_shr_record (m / 2) (Z.odd m) (r || s).
Proof.
  intros Hm. destruct m as [|p|p]; [reflexivity| |lia].
  destruct p as [p|p|]; cbn [shr_1]; f_equal.
  - change (Z.pos p~1) with (1 + 2 * Z.pos p).
    rewrite Z.mul_comm, Z.div_add by lia. reflexivity.
  - change (Z.pos p~0) with (2 * Z.pos p).
    rewrite Z.mul_comm, Z.div_mul by lia. reflexivity.
Qed.

Lemma shr_1_grid a B : 0 <= a -> 0 < B -> shr_1 (grid a B) = grid a (B * 2).
Proof.
  intros Ha HB.
  assert (Hq : 0 <= a / B) by (apply Z.div_pos; lia).
  unfold grid at 1. rewrite shr_1_nonneg by assumption.
  unfold grid, frac_r, frac_s.
  rewrite (Z.rem_mul_r a B 2) by lia.
  rewrite <- (Z.div_div a B 2) by lia.
  pose proof (Z.mod_pos_bound a B HB) as Hr.
  rewrite Zodd_mod.
  pose proof (Z.mod_pos_bound (a / B) 2 ltac:(lia)) as H2.
  set (t := (a / B) mod 2) in *.
  assert (Ht : t = 0 \/ t = 1) by lia.
  destruct Ht as [-> | ->]; f_equal; zbool.
Qed.

Lemma iter_pos_grid p : forall a B, 0 <= a -> 0 < B ->
  iter_pos shr_1 p (grid a B) = grid a (B * 2 ^ Z.pos p).
Proof.
  induction p as [p IH|p IH|]; intros a B Ha HB; cbn [iter_pos].
  - assert (H2 : 0 < 2 ^ Z.pos p) by (apply Z.pow_pos_nonneg; lia).
    rewrite shr_1_grid by lia.
    rewrite IH by lia. rewrite IH by nia.
    apply (f_equal (grid a)).
    replace (Z.pos p~1) with (1 + Z.pos p + Z.pos p) by lia.
    rewrite !Z.pow_add_r by lia. ring.
  - assert (H2 : 0 < 2 ^ Z.pos p) by (apply Z.pow_pos_nonneg; lia).
    rewrite IH by lia. rewrite IH by nia.
    apply (f_equal (grid a)).
    replace (Z.pos p~0) with (Z.pos p + Z.pos p) by lia.
    rewrite Z.pow_add_r by lia. ring.
  - rewrite shr_1_grid by lia. reflexivity.
Qed.

(** The number of binary digits. *)
Lemma fexp_eq e : fexp prec emax e = Z.max (e - 53) (-1074).
Proof. reflexivity. Qed.

Lemma digits2_pos_bounds p :
  2 ^ (Z.pos (digits2_pos p) - 1) <= Z.pos p < 2 ^ Z.pos (digits2_pos p).
Proof.
  induction p as [p IH|p IH|]; cbn [digits2_pos];
    [rewrite Pos2Z.inj_succ | rewrite Pos2Z.inj_succ | split; reflexivity];
    (replace (Z.succ (Z.pos (digits2_pos p)) - 1)
       with (Z.succ (Z.pos (digits2_pos p) - 1)) by lia);
    rewrite 2 Z.pow_succ_r by lia; lia.
Qed.

Lemma Zdigits2_bounds m : 0 < m ->
  1 <= Zdigits2 m /\ 2 ^ (Zdigits2 m - 1) <= m < 2 ^ Zdigits2 m.
Proof.
  destruct m as [|p|p]; try lia. intros _. cbn [Zdigits2].
  split; [lia | apply digits2_pos_bounds].
Qed.

Lemma Zdigits2_nonneg m : 0 <= Zdigits2 m.
Proof. destruct m; cbn [Zdigits2]; lia. Qed.

Lemma Zdigits2_unique m d : 0 < m -> 2 ^ (d - 1) <= m < 2 ^ d -> Zdigits2 m = d.
Proof.
  intros Hm [Hlo Hhi]. destruct (Zdigits2_bounds m Hm) as [H1 [Hl Hh]].
  assert (0 <= d).
  { destruct (Z.ltb_spec d 0); [|lia]. rewrite (Z.pow_neg_r 2 d) in Hhi; lia. }
  assert (d - 1 < Zdigits2 m).
  { apply (Z.pow_lt_mono_r_iff 2); lia. }
  assert (Zdigits2 m - 1 < d).
  { apply (Z.pow_lt_mono_r_iff 2); lia. }
  lia.
Qed.

Lemma Zdigits2_shift m k : 0 <= m -> 0 <= k ->
  Zdigits2 (m / 2 ^ k) = Z.max (Zdigits2 m - k) 0.
Proof.
  intros Hm Hk.
  assert (Hp : 0 < 2 ^ k) by (apply Z.pow_pos_nonneg; lia).
  destruct (Z.eq_dec m 0) as [->|Hm0].
  { rewrite Z.div_0_l by lia. cbn [Zdigits2]. lia. }
  destruct (Zdigits2_bounds m ltac:(lia)) as [H1 [Hl Hh]].
  destruct (Z.le_gt_cases (Zdigits2 m) k) as [Hle|Hgt].
  - rewrite Z.div_small. { cbn [Zdigits2]. lia. }
    split; [lia|]. apply Z.lt_le_trans with (2 ^ Zdigits2 m); [lia|].
    apply Z.pow_le_mono_r; lia.
  - rewrite Z.max_l by lia.
    assert (Hs1 : 2 ^ (Zdigits2 m - 1) = 2 ^ (Zdigits2 m - k - 1) * 2 ^ k).
    { rewrite <- Z.pow_add_r by lia. f_equal. lia. }
    assert (Hs2 : 2 ^ (Zdigits2 m) = 2 ^ (Zdigits2 m - k) * 2 ^ k).
    { rewrite <- Z.pow_add_r by lia. f_equal. lia. }
    assert (Hlow : 2 ^ (Zdigits2 m - k - 1) <= m / 2 ^ k).
    { apply Z.div_le_lower_bound; lia. }
    assert (Hup : m / 2 ^ k < 2 ^ (Zdigits2 m - k)).
    { apply Z.div_lt_upper_bound; lia. }
    apply Zdigits2_unique; [|lia].
    assert (0 < 2 ^ (Zdigits2 m - k - 1)) by (apply Z.pow_pos_nonneg; lia). lia.
Qed.

(** The first shift of [binary_round_aux] moves [a / b] to its own grid. *)
Lemma shr_fexp_grid a b e :
  0 <= a -> 0 < b -> 0 <= fexp prec emax (Zdigits2 (a / b) + e) - e ->
  shr_fexp prec emax (a / b) e (loc a b)
  = (grid a (b * 2 ^ (fexp prec emax (Zdigits2 (a / b) + e) - e)),
     fexp prec emax (Zdigits2 (a / b) + e)).
Proof.
  intros Ha Hb Hk. unfold shr_fexp. rewrite grid_loc by assumption.
  unfold shr. destruct (fexp prec emax (Zdigits2 (a / b) + e) - e) as [|p|p] eqn:E.
  - rewrite Z.mul_1_r. f_equal. lia.
  - rewrite iter_pos_grid by assumption. f_equal. lia.
  - lia.
Qed.

Lemma binary_round_aux_grid s a b e :
  0 <= a -> 0 < b -> 0 <= fexp prec emax (Zdigits2 (a / b) + e) - e ->
  binary_round_aux prec emax s (a / b) e (loc a b)
  = finish s (rne a (b * 2 ^ (fexp prec emax (Zdigits2 (a / b) + e) - e)))
             (fexp prec emax (Zdigits2 (a / b) + e)).
Proof.
  intros Ha Hb Hk. unfold binary_round_aux.
  rewrite shr_fexp_grid by assumption.
  assert (0 < 2 ^ (fexp prec emax (Zdigits2 (a / b) + e) - e))
    by (apply Z.pow_pos_nonneg; lia).
  rewrite loc_grid by nia. reflexivity.
Qed.

(** The second shift only acts when rounding carried into a new digit. *)
Lemma finish_spec s N g : -1074 <= g -> 0 <= N <= p53 ->
  finish s N g =
  if N =? 0 then S754_zero s
  else if N <? p53 then
         if g <=? 971 then S754_finite s (Z.to_pos N) g else S754_infinity s
       else
         if g + 1 <=? 971 then S754_finite s (Z.to_pos p52) (g + 1)
         else S754_infinity s.
Proof.
  intros Hg HN. unfold finish, shr_fexp.
  destruct (Z.eqb_spec N 0) as [->|HN0].
  { cbn [Zdigits2 shr_record_of_loc]. unfold shr.
    destruct (fexp prec emax (0 + g) - g) eqn:E; try reflexivity.
    rewrite fexp_eq in E. lia. }
  destruct (Z.ltb_spec N p53) as [Hlt|Hge].
  - destruct (Zdigits2_bounds N ltac:(lia)) as [H1 [Hl Hh]].
    assert (Zdigits2 N <= 53).
    { destruct (Z.le_gt_cases (Zdigits2 N) 53); [assumption|].
      assert (2 ^ 53 <= 2 ^ (Zdigits2 N - 1)) by (apply Z.pow_le_mono_r; lia).
      change (2 ^ 53) with p53 in *. lia. }
    unfold shr. cbn [shr_record_of_loc].
    destruct (fexp prec emax (Zdigits2 N + g) - g) eqn:E.
    + cbn [shr_m]. destruct N; try lia. reflexivity.
    + rewrite fexp_eq in E. lia.
    + cbn [shr_m]. destruct N; try lia. reflexivity.
  - assert (N = p53) by lia. subst N.
    change (Zdigits2 p53) with 54.
    replace (fexp prec emax (54 + g) - g) with 1 by (rewrite fexp_eq; lia).
    reflexivity.
Qed.

(** Rounding to the nearest integer, ties to even, is monotone. *)
Lemma rne_bounds a B : 0 < B -> a / B <= rne a B <= a / B + 1.
Proof.
  intros HB. unfold rne, round_nearest_even, loc.
  destruct (a mod B =? 0); [lia|].
  destruct (2 * (a mod B) ?= B); try lia.
  destruct (Z.even (a / B)); lia.
Qed.

Lemma rne_exact m B : 0 < B -> rne (m * B) B = m.
Proof.
  intros HB. unfold rne, loc. rewrite Z.mod_mul, Z.div_mul by lia. reflexivity.
Qed.

Lemma rne_mono a B a' B' :
  0 < B -> 0 < B' -> a * B' <= a' * B -> rne a B <= rne a' B'.
Proof.
  intros HB HB' Hle.
  pose proof (Z.div_mod a B ltac:(lia)) as Ea.
  pose proof (Z.div_mod a' B' ltac:(lia)) as Ea'.
  pose proof (Z.mod_pos_bound a B HB) as Hr.
  pose proof (Z.mod_pos_bound a' B' HB') as Hr'.
  set (q := a / B) in *. set (r := a mod B) in *.
  set (q' := a' / B') in *. set (r' := a' mod B') in *.
  assert (Hq : q <= q').
  { destruct (Z.le_gt_cases q q') as [|Hgt]; [assumption|exfalso].
    assert (B * B' * (q' + 1) <= B * B' * q) by (apply Z.mul_le_mono_nonneg_l; nia).
    assert (r' * B < B' * B) by (apply Z.mul_lt_mono_pos_r; lia).
    assert (0 <= r * B') by nia.
    rewrite Ea, Ea' in Hle. nia. }
  destruct (Z.eq_dec q q') as [Eq|Nq].
  - assert (Hfr : r * B' <= r' * B).
    { rewrite Ea, Ea', <- Eq in Hle. nia. }
    unfold rne, round_nearest_even, loc. fold q q' r r'. rewrite <- Eq.
    destruct (Z.eqb_spec r 0); destruct (Z.eqb_spec r' 0);
      destruct (Z.compare_spec (2 * r) B);
      destruct (Z.compare_spec (2 * r') B');
      destruct (Z.even q); try lia; nia.
  - pose proof (rne_bounds a B HB). pose proof (rne_bounds a' B' HB'). lia.
Qed.

(** A value at its own grid has at most 53 digits, and exactly 53 above
    the smallest exponent. *)
Lemma NF_bounds a B g : NF a B g ->
  -1074 <= g /\ 0 <= a / B < p53 /\ (-1074 < g -> p52 <= a / B).
Proof.
  intros (Ha & HB & Hg). rewrite fexp_eq in Hg.
  assert (Hq : 0 <= a / B) by (apply Z.div_pos; lia).
  split; [lia|].
  destruct (Z.eq_dec (a / B) 0) as [E|E].
  { rewrite E in *. cbn [Zdigits2] in Hg. unfold p53, p52. lia. }
  destruct (Zdigits2_bounds (a / B) ltac:(lia)) as [H1 [Hl Hh]].
  assert (Hd : Zdigits2 (a / B) <= 53) by lia.
  split.
  - split; [lia|]. apply Z.lt_le_trans with (2 ^ Zdigits2 (a / B)); [lia|].
    change p53 with (2 ^ 53). apply Z.pow_le_mono_r; lia.
  - intros Hn. assert (Zdigits2 (a / B) = 53) by lia.
    replace (Zdigits2 (a / B) - 1) with 52 in Hl by lia. exact Hl.
Qed.

Lemma NF_rne_bounds a B g : NF a B g ->
  0 <= rne a B <= p53 /\ (-1074 < g -> p52 <= rne a B).
Proof.
  intros H. destruct (NF_bounds a B g H) as (Hg & Hq & Hn).
  destruct H as (Ha & HB & _).
  pose proof (rne_bounds a B HB). split; [lia|]. intros Hlt. specialize (Hn Hlt). lia.
Qed.

Lemma SFleb_finite m g m' g' :
  g < g' \/ (g = g' /\ (m <= m')%positive) ->
  SFleb (S754_finite false m g) (S754_finite false m' g') = true.
Proof.
  intros H. unfold SFleb, SFcompare.
  destruct (Z.compare_spec g g'); try lia; try reflexivity.
  destruct H as [H|[_ H]]; [lia|].
  change (Pos.compare_cont Eq m m') with (Pos.compare m m').
  destruct (Pos.compare_spec m m'); try reflexivity. lia.
Qed.

Lemma finish_le N g N' g' :
  -1074 <= g <= g' -> 0 <= N <= p53 -> 0 <= N' <= p53 ->
  (g = g' -> N <= N') -> (g < g' -> p52 <= N') ->
  SFleb (finish false N g) (finish false N' g') = true.
Proof.
  intros Hg HN HN' Heq Hlt. rewrite !finish_spec by lia.
  assert (Hp : 0 < p52 < p53) by (unfold p52, p53; lia).
  destruct (Z.eqb_spec N 0); destruct (Z.eqb_spec N' 0);
  destruct (Z.ltb_spec N p53); destruct (Z.ltb_spec N' p53);
  destruct (Z.leb_spec g 971); destruct (Z.leb_spec g' 971);
  destruct (Z.leb_spec (g + 1) 971); destruct (Z.leb_spec (g' + 1) 971);
  try lia; try reflexivity; apply SFleb_finite; lia.
Qed.

Lemma qle_shift n1 d1 z1 n2 d2 z2 c : c <= z1 -> c <= z2 ->
  qle n1 d1 z1 n2 d2 z2 <->
  n1 * d2 * 2 ^ (z1 - c) <= n2 * d1 * 2 ^ (z2 - c).
Proof.
  intros H1 H2. unfold qle. set (M := Z.min z1 z2).
  assert (HW : 0 < 2 ^ (M - c)) by (apply Z.pow_pos_nonneg; lia).
  assert (E1 : 2 ^ (z1 - c) = 2 ^ (z1 - M) * 2 ^ (M - c)).
  { rewrite <- Z.pow_add_r by lia. f_equal. lia. }
  assert (E2 : 2 ^ (z2 - c) = 2 ^ (z2 - M) * 2 ^ (M - c)).
  { rewrite <- Z.pow_add_r by lia. f_equal. lia. }
  rewrite E1, E2, !Z.mul_assoc.
  split; intros H.
  - apply Z.mul_le_mono_nonneg_r; lia.
  - apply Z.mul_le_mono_pos_r in H; lia.
Qed.

(** Rounding is monotone: a smaller exact value never rounds to a larger
    number. *)
Theorem round_monotone a B g a' B' g' :
  NF a B g -> NF a' B' g' -> qle a B g a' B' g' ->
  SFleb (finish false (rne a B) g) (finish false (rne a' B') g') = true.
Proof.
  unfold qle. intros H H' Hv.
  destruct (NF_bounds _ _ _ H) as (Hg & Hq & Hn).
  destruct (NF_bounds _ _ _ H') as (Hg' & Hq' & Hn').
  destruct (NF_rne_bounds _ _ _ H) as (HN & HNn).
  destruct (NF_rne_bounds _ _ _ H') as (HN' & HNn').
  destruct H as (Ha & HB & _). destruct H' as (Ha' & HB' & _).
  pose proof (Z.div_mod a B ltac:(lia)) as Ea.
  pose proof (Z.div_mod a' B' ltac:(lia)) as Ea'.
  pose proof (Z.mod_pos_bound a B HB) as Hr.
  pose proof (Z.mod_pos_bound a' B' HB') as Hr'.
  assert (Hp : p53 = 2 * p52 /\ 0 < p52) by (unfold p52, p53; lia).
  assert (Hgg : g <= g').
  { destruct (Z.le_gt_cases g g') as [|Hgt]; [assumption|exfalso].
    rewrite Z.min_r, Z.sub_diag, Z.mul_1_r in Hv by lia.
    assert (2 <= 2 ^ (g - g')).
    { change 2 with (2 ^ 1) at 1. apply Z.pow_le_mono_r; lia. }
    specialize (Hn ltac:(lia)).
    assert (a * B' * 2 <= a' * B) by nia.
    assert (p52 * B <= a) by nia.
    assert (a' < p53 * B') by nia.
    nia. }
  apply finish_le; try lia.
  intros ->. rewrite Z.min_l, Z.sub_diag, !Z.mul_1_r in Hv by lia.
  apply rne_mono; assumption.
Qed.

Lemma presents_qle a1 B1 g1 n1 d1 z1 a2 B2 g2 n2 d2 z2 :
  presents a1 B1 g1 n1 d1 z1 -> presents a2 B2 g2 n2 d2 z2 ->
  qle n1 d1 z1 n2 d2 z2 -> qle a1 B1 g1 a2 B2 g2.
Proof.
  intros (s1 & k1 & Hs1 & Hk1 & -> & -> & E1) (s2 & k2 & Hs2 & Hk2 & -> & -> & E2) H.
  set (c := Z.min g1 g2 - k1 - k2).
  apply (qle_shift _ _ _ _ _ _ c) in H; [|lia|lia].
  unfold qle. set (lo := Z.min g1 g2).
  assert (P1 : 2 ^ (z1 - c) = 2 ^ s1 * 2 ^ k2 * 2 ^ (g1 - lo)).
  { rewrite <- !Z.pow_add_r by lia. f_equal. lia. }
  assert (P2 : 2 ^ (z2 - c) = 2 ^ s2 * 2 ^ k1 * 2 ^ (g2 - lo)).
  { rewrite <- !Z.pow_add_r by lia. f_equal. lia. }
  rewrite P1, P2 in H.
  replace (n1 * 2 ^ s1 * (d2 * 2 ^ k2) * 2 ^ (g1 - lo))
    with (n1 * d2 * (2 ^ s1 * 2 ^ k2 * 2 ^ (g1 - lo))) by ring.
  replace (n2 * 2 ^ s2 * (d1 * 2 ^ k1) * 2 ^ (g2 - lo))
    with (n2 * d1 * (2 ^ s2 * 2 ^ k1 * 2 ^ (g2 - lo))) by ring.
  exact H.
Qed.

(** What [binary_round_aux] returns on a quotient. *)
Lemma NF_after_shift a b e : 0 <= a -> 0 < b ->
  e <= fexp prec emax (Zdigits2 (a / b) + e) ->
  NF a (b * 2 ^ (fexp prec emax (Zdigits2 (a / b) + e) - e))
     (fexp prec emax (Zdigits2 (a / b) + e)).
Proof.
  intros Ha Hb He. set (g := fexp prec emax (Zdigits2 (a / b) + e)) in *.
  assert (Hp : 0 < 2 ^ (g - e)) by (apply Z.pow_pos_nonneg; lia).
  split; [assumption|]. split; [nia|].
  rewrite <- Z.div_div by lia.
  rewrite Zdigits2_shift by (try lia; apply Z.div_pos; lia).
  pose proof (Zdigits2_nonneg (a / b)).
  unfold g. rewrite !fexp_eq. unfold g in He. rewrite fexp_eq in He. lia.
Qed.

Lemma binary_round_aux_desc s a b e : 0 <= a -> 0 < b ->
  e <= fexp prec emax (Zdigits2 (a / b) + e) ->
  exists k g, 0 <= k /\ g = e + k /\ NF a (b * 2 ^ k) g /\
    binary_round_aux prec emax s (a / b) e (loc a b)
    = finish s (rne a (b * 2 ^ k)) g.
Proof.
  intros Ha Hb He.
  exists (fexp prec emax (Zdigits2 (a / b) + e) - e),
         (fexp prec emax (Zdigits2 (a / b) + e)).
  split; [lia|]. split; [lia|]. split.
  - apply NF_after_shift; assumption.
  - apply binary_round_aux_grid; lia.
Qed.

(** Division of finite numbers rounds their exact quotient. *)
Lemma Zdigits2_lower m t : 0 <= t -> 2 ^ t <= m -> t + 1 <= Zdigits2 m.
Proof.
  intros Ht Hm.
  assert (0 < 2 ^ t) by (apply Z.pow_pos_nonneg; lia).
  destruct (Zdigits2_bounds m ltac:(lia)) as [H1 [Hl Hh]].
  assert (t < Zdigits2 m) by (apply (Z.pow_lt_mono_r_iff 2); lia).
  lia.
Qed.

Lemma div_exponent_ok mx my ex ey :
  let e' := Z.min (fexp prec emax (Zdigits2 (Z.pos mx) + ex - (Zdigits2 (Z.pos my) + ey)))
                  (ex - ey) in
  let s := ex - ey - e' in
  0 <= s /\
  e' <= fexp prec emax (Zdigits2 (Z.pos mx * 2 ^ s / Z.pos my) + e').
Proof.
  intros e' s.
  destruct (Zdigits2_bounds (Z.pos mx) ltac:(lia)) as [Hx1 [Hxl Hxh]].
  destruct (Zdigits2_bounds (Z.pos my) ltac:(lia)) as [Hy1 [Hyl Hyh]].
  set (d1 := Zdigits2 (Z.pos mx)) in *. set (d2 := Zdigits2 (Z.pos my)) in *.
  assert (Hs : 0 <= s) by (unfold s, e'; lia).
  split; [exact Hs|].
  assert (He' : e' <= fexp prec emax (d1 + ex - (d2 + ey))) by (unfold e'; lia).
  rewrite fexp_eq in He'. rewrite fexp_eq.
  destruct (Z.le_gt_cases 1 (d1 + s - d2)) as [Hc|Hc].
  - set (t := d1 - 1 + s - d2).
    assert (Ht : 2 ^ t <= Z.pos mx * 2 ^ s / Z.pos my).
    { apply Z.div_le_lower_bound; [lia|].
      assert (0 < 2 ^ t) by (apply Z.pow_pos_nonneg; lia).
      assert (0 < 2 ^ s) by (apply Z.pow_pos_nonneg; lia).
      assert (E : 2 ^ d2 * 2 ^ t = 2 ^ (d1 - 1) * 2 ^ s).
      { rewrite <- !Z.pow_add_r by lia. f_equal. lia. }
      nia. }
    apply Zdigits2_lower in Ht; [|lia]. unfold t, s in *. lia.
  - unfold s in *. lia.
Qed.

Lemma SFdiv_finite sx mx ex sy my ey :
  exists a B g, NF a B g /\ presents a B g (Z.pos mx) (Z.pos my) (ex - ey) /\
    SFdiv prec emax (S754_finite sx mx ex) (S754_finite sy my ey)
    = finish (xorb sx sy) (rne a B) g.
Proof.
  destruct (div_exponent_ok mx my ex ey) as [Hs He].
  cbn [SFdiv]. unfold SFdiv_core_binary.
  set (e' := Z.min (fexp prec emax (Zdigits2 (Z.pos mx) + ex - (Zdigits2 (Z.pos my) + ey)))
                   (ex - ey)) in *.
  set (s := ex - ey - e') in *.
  set (m' := match s with Z.pos _ => Z.shiftl (Z.pos mx) s | 0 => Z.pos mx | Z.neg _ => 0 end).
  assert (Hm' : m' = Z.pos mx * 2 ^ s).
  { unfold m'. destruct s; [rewrite Z.mul_1_r; reflexivity | | lia].
    apply Z.shiftl_mul_pow2. lia. }
  rewrite <- Hm' in He.
  assert (0 < 2 ^ s) by (apply Z.pow_pos_nonneg; lia).
  destruct (binary_round_aux_desc (xorb sx sy) m' (Z.pos my) e')
    as (k & g & Hk & Hg & HNF & Hround); [nia | lia | exact He |].
  destruct (Z.div_eucl m' (Z.pos my)) as [q r] eqn:Ediv.
  assert (Hq : q = m' / Z.pos my) by (unfold Z.div; rewrite Ediv; reflexivity).
  assert (Hr : r = m' mod Z.pos my) by (unfold Z.modulo; rewrite Ediv; reflexivity).
  exists m', (Z.pos my * 2 ^ k), g. split; [exact HNF|]. split.
  - exists s, k. repeat split; lia.
  - rewrite Hq, Hr, new_location_loc by lia. exact Hround.
Qed.

(** A valid finite number rounds to itself, and the order of [SFcompare]
    is the order of the values. *)
Lemma valid_NF s m e : valid_binary (S754_finite s m e) = true ->
  NF (Z.pos m) 1 e /\ e <= 971 /\ finish s (rne (Z.pos m) 1) e = S754_finite s m e.
Proof.
  cbn [SpecFloat.valid_binary]. unfold bounded, canonical_mantissa.
  intros H. apply andb_true_iff in H. destruct H as [Hc Hb].
  apply Z.eqb_eq in Hc. apply Z.leb_le in Hb. change (e <= 971) in Hb.
  assert (HNF : NF (Z.pos m) 1 e).
  { split; [lia|]. split; [lia|]. rewrite Z.div_1_r. exact Hc. }
  split; [exact HNF|]. split; [exact Hb|].
  destruct (NF_bounds _ _ _ HNF) as (Hg & Hq & _). rewrite Z.div_1_r in Hq.
  pose proof (rne_exact (Z.pos m) 1 ltac:(lia)) as Hr.
  rewrite Z.mul_1_r in Hr. rewrite Hr, finish_spec by lia.
  destruct (Z.eqb_spec (Z.pos m) 0); [lia|].
  destruct (Z.ltb_spec (Z.pos m) p53); [|lia].
  destruct (Z.leb_spec e 971); [|lia]. reflexivity.
Qed.

Lemma presents_self m e : presents (Z.pos m) 1 e (Z.pos m) 1 e.
Proof. exists 0, 0. repeat split; lia. Qed.

Lemma SFleb_qle m e m' e' :
  valid_binary (S754_finite false m e) = true ->
  valid_binary (S754_finite false m' e') = true ->
  SFleb (S754_finite false m e) (S754_finite false m' e') = true ->
  qle (Z.pos m) 1 e (Z.pos m') 1 e'.
Proof.
  intros Hv Hv' H.
  destruct (valid_NF _ _ _ Hv) as (HNF & _ & _).
  destruct (valid_NF _ _ _ Hv') as (HNF' & _ & _).
  destruct (NF_bounds _ _ _ HNF) as (Hg & Hq & Hn).
  destruct (NF_bounds _ _ _ HNF') as (Hg' & Hq' & Hn').
  rewrite Z.div_1_r in *.
  assert (Hp : p53 = 2 * p52 /\ 0 < p52) by (unfold p52, p53; lia).
  unfold SFleb, SFcompare in H. unfold qle.
  destruct (Z.compare_spec e e') as [->|Hlt|Hgt].
  - rewrite Z.min_l, Z.sub_diag by lia.
    change (Pos.compare_cont Eq m m') with (Pos.compare m m') in H.
    destruct (Pos.compare_spec m m'); try discriminate; lia.
  - rewrite Z.min_l, Z.sub_diag by lia.
    assert (2 <= 2 ^ (e' - e)).
    { change 2 with (2 ^ 1) at 1. apply Z.pow_le_mono_r; lia. }
    specialize (Hn' ltac:(lia)). nia.
  - discriminate.
Qed.

(** Rounding an integer at an exponent, as addition and subtraction do. *)
Lemma Zdigits2_mul_pow2 m k : 0 < m -> 0 <= k ->
  Zdigits2 (m * 2 ^ k) = Zdigits2 m + k.
Proof.
  intros Hm Hk. destruct (Zdigits2_bounds m Hm) as [H1 [Hl Hh]].
  assert (0 < 2 ^ k) by (apply Z.pow_pos_nonneg; lia).
  apply Zdigits2_unique; [nia|].
  replace (Zdigits2 m + k - 1) with (Zdigits2 m - 1 + k) by lia.
  rewrite !Z.pow_add_r by lia. nia.
Qed.

Lemma shl_align_spec m e e' :
  exists t, 0 <= t /\ e - t <= e' /\ (e' <= e -> e - t = e') /\
    shl_align m e e' = (Z.to_pos (Z.pos m * 2 ^ t), e - t).
Proof.
  unfold shl_align. destruct (e' - e) as [|d|d] eqn:E.
  - exists 0. rewrite Z.mul_1_r, Z.sub_0_r. repeat split; lia.
  - exists 0. rewrite Z.mul_1_r, Z.sub_0_r. repeat split; lia.
  - exists (Z.pos d). split; [lia|]. split; [lia|]. split; [lia|].
    f_equal; [|lia]. change (Pos.iter xO m d) with (shift_pos d m).
    apply Pos2Z.inj. rewrite shift_pos_correct, Z2Pos.id.
    + rewrite Z.pow_pos_fold. ring.
    + assert (0 < 2 ^ Z.pos d) by (apply Z.pow_pos_nonneg; lia). nia.
Qed.

Lemma binary_round_desc s p e :
  exists a B g, NF a B g /\ presents a B g (Z.pos p) 1 e /\
    binary_round prec emax s p e = finish s (rne a B) g.
Proof.
  unfold binary_round.
  destruct (shl_align_spec p e (fexp prec emax (Z.pos (digits2_pos p) + e)))
    as (t & Ht & Hle & Heq & ->).
  assert (Hp : 0 < 2 ^ t) by (apply Z.pow_pos_nonneg; lia).
  rewrite Z2Pos.id by nia.
  set (a := Z.pos p * 2 ^ t).
  assert (Hd : Zdigits2 (a / 1) + (e - t) = Z.pos (digits2_pos p) + e).
  { rewrite Z.div_1_r. unfold a. rewrite Zdigits2_mul_pow2 by lia.
    cbn [Zdigits2]. lia. }
  destruct (binary_round_aux_desc s a 1 (e - t)) as (k & g & Hk & Hg & HNF & Hr).
  { unfold a. nia. } { lia. } { rewrite Hd. exact Hle. }
  exists a, (1 * 2 ^ k), g. split; [exact HNF|]. split.
  - exists t, k. repeat split; lia.
  - rewrite <- Hr. rewrite Z.div_1_r. unfold loc. rewrite Z.mod_1_r. reflexivity.
Qed.

(** A rounded non-negative value is zero, a positive number or infinity. *)
Lemma finish_cases N g : -1074 <= g -> 0 <= N <= p53 ->
  finish false N g = S754_zero false \/
  finish false N g = S754_infinity false \/
  exists m e, finish false N g = S754_finite false m e.
Proof.
  intros Hg HN. rewrite finish_spec by assumption.
  destruct (N =? 0); [auto|].
  destruct (N <? p53); [destruct (g <=? 971) | destruct (g + 1 <=? 971)]; eauto.
Qed.

Lemma NF_finish_cases a B g : NF a B g ->
  finish false (rne a B) g = S754_zero false \/
  finish false (rne a B) g = S754_infinity false \/
  exists m e, finish false (rne a B) g = S754_finite false m e.
Proof.
  intros H. destruct (NF_bounds _ _ _ H) as (Hg & _).
  destruct (NF_rne_bounds _ _ _ H) as (HN & _).
  apply finish_cases; assumption.
Qed.

(** ** Facts on [spec_float] operations *)

Lemma NF_one : NF p52 1 (-52) /\ finish false (rne p52 1) (-52) = SFone.
Proof. split; [|reflexivity]. split; [discriminate|]. split; reflexivity. Qed.

Lemma SFleb_zero_finish s a B g : NF a B g ->
  SFleb (S754_zero s) (finish false (rne a B) g) = true.
Proof.
  intros H. destruct (NF_finish_cases _ _ _ H) as [-> | [-> | (m & e & ->)]];
    reflexivity.
Qed.

Lemma SFleb_finish_inf a B g : NF a B g ->
  SFleb (finish false (rne a B) g) SFinf = true.
Proof.
  intros H. destruct (NF_finish_cases _ _ _ H) as [-> | [-> | (m & e & ->)]];
    reflexivity.
Qed.

Lemma SFdiv_finite_ge_one mx ex my ey :
  valid_binary (S754_finite false mx ex) = true ->
  valid_binary (S754_finite false my ey) = true ->
  SFleb (S754_finite false my ey) (S754_finite false mx ex) = true ->
  SFleb SFone (SFdiv prec emax (S754_finite false mx ex) (S754_finite false my ey)) = true.
Proof.
  intros Hx Hy Hle.
  destruct (SFdiv_finite false mx ex false my ey) as (a & B & g & HNF & Hpres & ->).
  destruct NF_one as [H1 <-]. cbn [xorb].
  apply round_monotone; [exact H1 | exact HNF |].
  apply (presents_qle _ _ _ 1 1 0 _ _ _ (Z.pos mx) (Z.pos my) (ex - ey)).
  - exists 52, 0. repeat split; lia.
  - exact Hpres.
  - pose proof (SFleb_qle _ _ _ _ Hy Hx Hle) as Hq. unfold qle in *.
    replace (0 - Z.min 0 (ex - ey)) with (ey - Z.min ey ex) by lia.
    replace (ex - ey - Z.min 0 (ex - ey)) with (ex - Z.min ey ex) by lia.
    lia.
Qed.

Lemma SFdiv_finite_mono m1 e1 m2 e2 my ey :
  valid_binary (S754_finite false m1 e1) = true ->
  valid_binary (S754_finite false m2 e2) = true ->
  SFleb (S754_finite false m1 e1) (S754_finite false m2 e2) = true ->
  SFleb (SFdiv prec emax (S754_finite false m1 e1) (S754_finite false my ey))
        (SFdiv prec emax (S754_finite false m2 e2) (S754_finite false my ey)) = true.
Proof.
  intros H1 H2 Hle.
  destruct (SFdiv_finite false m1 e1 false my ey) as (a & B & g & HNF & Hpres & ->).
  destruct (SFdiv_finite false m2 e2 false my ey) as (a' & B' & g' & HNF' & Hpres' & ->).
  cbn [xorb]. apply round_monotone; [exact HNF | exact HNF' |].
  apply (presents_qle _ _ _ _ _ _ _ _ _ _ _ _ Hpres Hpres').
  pose proof (SFleb_qle _ _ _ _ H1 H2 Hle) as Hq. unfold qle in *.
  replace (e1 - ey - Z.min (e1 - ey) (e2 - ey)) with (e1 - Z.min e1 e2) by lia.
  replace (e2 - ey - Z.min (e1 - ey) (e2 - ey)) with (e2 - Z.min e1 e2) by lia.
  nia.
Qed.

(** Subtracting a smaller positive number rounds the exact difference. *)
Lemma SFsub_finite mx ex my ey :
  valid_binary (S754_finite false mx ex) = true ->
  valid_binary (S754_finite false my ey) = true ->
  SFleb (S754_finite false my ey) (S754_finite false mx ex) = true ->
  let ez := Z.min ex ey in
  let d := Z.pos mx * 2 ^ (ex - ez) - Z.pos my * 2 ^ (ey - ez) in
  0 <= d /\
  (d = 0 -> SFsub prec emax (S754_finite false mx ex) (S754_finite false my ey)
            = S754_zero false) /\
  (0 < d -> exists a B g, NF a B g /\ presents a B g d 1 ez /\
      SFsub prec emax (S754_finite false mx ex) (S754_finite false my ey)
      = finish false (rne a B) g).
Proof.
  intros Hx Hy Hle ez d.
  pose proof (SFleb_qle _ _ _ _ Hy Hx Hle) as Hq. unfold qle in Hq.
  rewrite !Z.mul_1_r in Hq. rewrite (Z.min_comm ey ex) in Hq. fold ez in Hq.
  assert (Hd : 0 <= d) by (unfold d; lia).
  assert (Hsub : SFsub prec emax (S754_finite false mx ex) (S754_finite false my ey)
                 = binary_normalize prec emax d ez false).
  { cbn [SFsub cond_Zopp]. fold ez. f_equal. unfold d.
    destruct (shl_align_spec mx ex ez) as (t & Ht & _ & Et & ->).
    destruct (shl_align_spec my ey ez) as (u & Hu & _ & Eu & ->).
    cbn [fst].
    assert (0 < 2 ^ t) by (apply Z.pow_pos_nonneg; lia).
    assert (0 < 2 ^ u) by (apply Z.pow_pos_nonneg; lia).
    rewrite !Z2Pos.id by nia.
    replace (ex - ez) with t by (unfold ez in *; lia).
    replace (ey - ez) with u by (unfold ez in *; lia). reflexivity. }
  split; [exact Hd|]. split.
  - intros E. rewrite Hsub, E. reflexivity.
  - intros Hpos. rewrite Hsub. destruct d as [|p|p]; try lia.
    cbn [binary_normalize]. apply binary_round_desc.
Qed.

(** The order of [SFcompare] is transitive and total off NaN. *)
Ltac cmp_cases :=
  repeat match goal with
  | H : context [Pos.compare_cont Eq ?a ?b] |- _ =>
      change (Pos.compare_cont Eq a b) with (Pos.compare a b) in H
  | |- context [Pos.compare_cont Eq ?a ?b] =>
      change (Pos.compare_cont Eq a b) with (Pos.compare a b)
  | H : context [Z.compare ?a ?b] |- _ => destruct (Z.compare_spec a b)
  | |- context [Z.compare ?a ?b] => destruct (Z.compare_spec a b)
  | H : context [Pos.compare ?a ?b] |- _ => destruct (Pos.compare_spec a b)
  | |- context [Pos.compare ?a ?b] => destruct (Pos.compare_spec a b)
  end; cbn [CompOpp] in *; try reflexivity; try discriminate; try lia.

Lemma SFleb_trans x y z :
  SFleb x y = true -> SFleb y z = true -> SFleb x z = true.
Proof.
  unfold SFleb.
  destruct x as [[]|[]| |[] mx ex], y as [[]|[]| |[] my ey], z as [[]|[]| |[] mz ez];
    cbn [SFcompare]; intros Hxy Hyz; try reflexivity; try discriminate; cmp_cases.
Qed.

Lemma SFleb_ltb_trans x y z :
  SFleb x y = true -> SFltb y z = true -> SFltb x z = true.
Proof.
  unfold SFleb, SFltb.
  destruct x as [[]|[]| |[] mx ex], y as [[]|[]| |[] my ey], z as [[]|[]| |[] mz ez];
    cbn [SFcompare]; intros Hxy Hyz; try reflexivity; try discriminate; cmp_cases.
Qed.

Lemma SFleb_total x y : x <> S754_nan -> y <> S754_nan ->
  SFltb x y = false -> SFleb y x = true.
Proof.
  unfold SFleb, SFltb.
  destruct x as [[]|[]| |[] mx ex], y as [[]|[]| |[] my ey];
    cbn [SFcompare]; intros Hx Hy H; try reflexivity; try discriminate;
    try congruence; cmp_cases.
Qed.

Lemma sub_scale m e ms es c : c <= Z.min e es ->
  (m * 2 ^ (e - Z.min e es) - ms * 2 ^ (es - Z.min e es)) * 2 ^ (Z.min e es - c)
  = m * 2 ^ (e - c) - ms * 2 ^ (es - c).
Proof.
  intros Hc. set (z := Z.min e es) in *.
  assert (Hz : z <= e /\ z <= es) by (unfold z; lia). clearbody z.
  rewrite Z.mul_sub_distr_r, <- !Z.mul_assoc, <- !Z.pow_add_r by lia.
  replace (e - z + (z - c)) with (e - c) by lia.
  replace (es - z + (z - c)) with (es - c) by lia. reflexivity.
Qed.

Lemma SFsub_finite_mono ms es m1 e1 m2 e2 :
  valid_binary (S754_finite false ms es) = true ->
  valid_binary (S754_finite false m1 e1) = true ->
  valid_binary (S754_finite false m2 e2) = true ->
  SFleb (S754_finite false ms es) (S754_finite false m1 e1) = true ->
  SFleb (S754_finite false m1 e1) (S754_finite false m2 e2) = true ->
  SFleb (SFsub prec emax (S754_finite false m1 e1) (S754_finite false ms es))
        (SFsub prec emax (S754_finite false m2 e2) (S754_finite false ms es)) = true.
Proof.
  intros Hs H1 H2 Hs1 H12.
  pose proof (SFleb_trans _ _ _ Hs1 H12) as Hs2.
  destruct (SFsub_finite _ _ _ _ H1 Hs Hs1) as (Hd1 & Hz1 & Hp1).
  destruct (SFsub_finite _ _ _ _ H2 Hs Hs2) as (Hd2 & Hz2 & Hp2).
  pose proof (SFleb_qle _ _ _ _ H1 H2 H12) as Hq.
  set (c := Z.min (Z.min e1 es) (Z.min e2 es)).
  assert (Hc : c <= Z.min e1 es /\ c <= Z.min e2 es /\ c <= e1 /\ c <= e2)
    by (unfold c; lia).
  clearbody c. destruct Hc as (Hc1 & Hc2 & Hc3 & Hc4).
  apply (qle_shift _ _ _ _ _ _ c) in Hq; [|assumption..].
  pose proof (sub_scale (Z.pos m1) e1 (Z.pos ms) es c Hc1) as E1.
  pose proof (sub_scale (Z.pos m2) e2 (Z.pos ms) es c Hc2) as E2.
  assert (W1 : 0 < 2 ^ (Z.min e1 es - c)) by (apply Z.pow_pos_nonneg; lia).
  assert (W2 : 0 < 2 ^ (Z.min e2 es - c)) by (apply Z.pow_pos_nonneg; lia).
  set (z1 := Z.min e1 es) in *. set (z2 := Z.min e2 es) in *.
  set (d1 := Z.pos m1 * 2 ^ (e1 - z1) - Z.pos ms * 2 ^ (es - z1)) in *.
  set (d2 := Z.pos m2 * 2 ^ (e2 - z2) - Z.pos ms * 2 ^ (es - z2)) in *.
  clearbody d1 d2 z1 z2.
  assert (Hle : d1 * 1 * 2 ^ (z1 - c) <= d2 * 1 * 2 ^ (z2 - c)).
  { rewrite !Z.mul_1_r in *. rewrite E1, E2. clear - Hq. lia. }
  clear E1 E2 Hq.
  assert (Hpos : 0 < d1 -> 0 < d2).
  { intros Hp. destruct (Z.le_gt_cases d2 0) as [Hn|]; [exfalso|assumption].
    assert (0 < d1 * 1 * 2 ^ (z1 - c))
      by (rewrite Z.mul_1_r; apply Z.mul_pos_pos; assumption).
    assert (d2 * 1 * 2 ^ (z2 - c) <= 0)
      by (rewrite Z.mul_1_r; apply Z.mul_nonpos_nonneg; [assumption|];
          apply Z.lt_le_incl; assumption).
    clear - H H0 Hle. lia. }
  destruct (Z.eq_dec d1 0) as [E|E].
  - rewrite (Hz1 E). destruct (Z.eq_dec d2 0) as [E'|E'].
    + rewrite (Hz2 E'). reflexivity.
    + destruct Hp2 as (a & B & g & HNF & _ & ->); [clear - Hd2 E'; lia|].
      apply SFleb_zero_finish. exact HNF.
  - assert (Hp : 0 < d1) by (clear - Hd1 E; lia).
    destruct (Hp1 Hp) as (a & B & g & HNF & Hpres & ->).
    destruct (Hp2 (Hpos Hp)) as (a' & B' & g' & HNF' & Hpres' & ->).
    apply round_monotone; [exact HNF | exact HNF' |].
    apply (presents_qle _ _ _ _ _ _ _ _ _ _ _ _ Hpres Hpres').
    apply (qle_shift _ _ _ _ _ _ c); [assumption..|exact Hle].
Qed.

Lemma SFsub_finite_le ms es m e :
  valid_binary (S754_finite false ms es) = true ->
  valid_binary (S754_finite false m e) = true ->
  SFleb (S754_finite false ms es) (S754_finite false m e) = true ->
  SFleb (SFsub prec emax (S754_finite false m e) (S754_finite false ms es))
        (S754_finite false m e) = true.
Proof.
  intros Hs Hn Hle.
  destruct (SFsub_finite _ _ _ _ Hn Hs Hle) as (Hd & Hz & Hp).
  destruct (valid_NF _ _ _ Hn) as (HNFn & _ & Hfin).
  clear Hs Hn Hle.
  assert (Hze : Z.min e es <= e) by lia.
  assert (W : 0 < 2 ^ (es - Z.min e es)) by (apply Z.pow_pos_nonneg; lia).
  set (z := Z.min e es) in *.
  assert (Hdle : Z.pos m * 2 ^ (e - z) - Z.pos ms * 2 ^ (es - z)
                 <= Z.pos m * 2 ^ (e - z)).
  { clear - W. assert (0 < Z.pos ms * 2 ^ (es - z)) by (apply Z.mul_pos_pos; lia). lia. }
  set (d := Z.pos m * 2 ^ (e - z) - Z.pos ms * 2 ^ (es - z)) in *.
  clearbody d z.
  destruct (Z.eq_dec d 0) as [E|E].
  - rewrite (Hz E). reflexivity.
  - destruct Hp as (a & B & g & HNF & Hpres & ->); [clear - Hd E; lia|].
    rewrite <- Hfin.
    apply round_monotone; [exact HNF | exact HNFn |].
    apply (presents_qle _ _ _ _ _ _ _ _ _ _ _ _ Hpres (presents_self m e)).
    apply (qle_shift _ _ _ _ _ _ z); [apply Z.le_refl | assumption |].
    rewrite Z.sub_diag. change (2 ^ 0) with 1. clear - Hdle. lia.
Qed.

(** The quotient of a positive number and a larger one stays below [1]:
    it is at most the largest number below [1], which rounding keeps. *)
Lemma NF_pred_one :
  NF (p53 - 1) 1 (-53) /\ finish false (rne (p53 - 1) 1) (-53) = SFpred_one.
Proof. split; [|reflexivity]. split; [discriminate|]. split; reflexivity. Qed.

Lemma SFltb_finite_cases m e m' e' :
  SFltb (S754_finite false m e) (S754_finite false m' e') = true ->
  e < e' \/ (e = e' /\ Z.pos m < Z.pos m').
Proof.
  unfold SFltb, SFcompare.
  destruct (Z.compare_spec e e') as [->|Hlt|Hgt]; intros H; try discriminate.
  - right. split; [reflexivity|].
    change (Pos.compare_cont Eq m m') with (Pos.compare m m') in H.
    destruct (Pos.compare_spec m m'); try discriminate. lia.
  - left. exact Hlt.
Qed.

Lemma SFdiv_finite_lt_one mx ex my ey :
  valid_binary (S754_finite false mx ex) = true ->
  valid_binary (S754_finite false my ey) = true ->
  SFltb (S754_finite false mx ex) (S754_finite false my ey) = true ->
  SFltb (SFdiv prec emax (S754_finite false mx ex) (S754_finite false my ey))
        SFone = true.
Proof.
  intros Hx Hy Hlt.
  destruct (valid_NF _ _ _ Hx) as (HNFx & _ & _).
  destruct (valid_NF _ _ _ Hy) as (HNFy & _ & _).
  destruct (NF_bounds _ _ _ HNFx) as (Hgx & Hqx & _).
  destruct (NF_bounds _ _ _ HNFy) as (Hgy & Hqy & Hny).
  rewrite Z.div_1_r in *.
  apply SFltb_finite_cases in Hlt.
  destruct (SFdiv_finite false mx ex false my ey) as (a & B & g & HNF & Hpres & ->).
  cbn [xorb]. apply (SFleb_ltb_trans _ SFpred_one); [|reflexivity].
  destruct NF_pred_one as [H1 <-].
  apply round_monotone; [exact HNF | exact H1 |].
  apply (presents_qle _ _ _ (Z.pos mx) (Z.pos my) (ex - ey) _ _ _ (p53 - 1) 1 (-53)).
  - exact Hpres.
  - exists 0, 0. repeat split; lia.
  - assert (Hk : 0 <= ey - ex) by lia.
    apply (qle_shift _ _ _ _ _ _ (-53 - (ey - ex))); [lia..|].
    replace (ex - ey - (-53 - (ey - ex))) with 53 by lia.
    replace (-53 - (-53 - (ey - ex))) with (ey - ex) by lia.
    change (2 ^ 53) with p53.
    assert (Hp : p53 = 2 * p52 /\ 0 < p52) by (unfold p52, p53; lia).
    destruct Hlt as [Hlt | [He Hm]].
    + assert (2 <= 2 ^ (ey - ex)).
      { change 2 with (2 ^ 1) at 1. apply Z.pow_le_mono_r; lia. }
      specialize (Hny ltac:(lia)).
      assert (p53 <= Z.pos my * 2 ^ (ey - ex)) by nia.
      clear - Hqx H0 Hp. nia.
    + replace (ey - ex) with 0 by lia. change (2 ^ 0) with 1.
      clear - Hm Hqy Hp. nia.
Qed.

(** A quotient of opposite signs is negative, zero or minus infinity. *)
Lemma SFltb_finish_neg_one a B g : NF a B g ->
  SFltb (finish true (rne a B) g) SFone = true.
Proof.
  intros H. destruct (NF_bounds _ _ _ H) as (Hg & _).
  destruct (NF_rne_bounds _ _ _ H) as (HN & _).
  rewrite finish_spec by assumption.
  destruct (rne a B =? 0); [reflexivity|].
  destruct (rne a B <? p53);
    [destruct (g <=? 971) | destruct (g + 1 <=? 971)]; reflexivity.
Qed.

Lemma SFltb_total x y : x <> S754_nan -> y <> S754_nan ->
  SFleb y x = false -> SFltb x y = true.
Proof.
  unfold SFleb, SFltb.
  destruct x as [[]|[]| |[] mx ex], y as [[]|[]| |[] my ey];
    cbn [SFcompare]; intros Hx Hy H; try reflexivity; try discriminate;
    try congruence; cmp_cases.
Qed.

Lemma SFltb_asym x y : SFltb x y = true -> SFltb y x = false.
Proof.
  unfold SFltb.
  destruct x as [[]|[]| |[] mx ex], y as [[]|[]| |[] my ey];
    cbn [SFcompare]; intros H; try reflexivity; try discriminate; cmp_cases.
Qed.

Lemma SFltb_not_eqb x y : SFltb x y = true -> SFeqb x y = false.
Proof.
  unfold SFltb, SFeqb. destruct (SFcompare x y) as [[]|]; congruence.
Qed.

End Binary64Facts.

(** ** Facts on JavaScript numbers *)

Module NumberFacts.

Import Binary64 Binary64Facts.
Local Open Scope float_scope.

Lemma Prim2SF_0 : Prim2SF 0 = SFzero. Proof. reflexivity. Qed.
Lemma Prim2SF_1 : Prim2SF 1 = SFone. Proof. reflexivity. Qed.
Lemma Prim2SF_infinity : Prim2SF infinity = SFinf. Proof. reflexivity. Qed.

(** From primitive floats to their specification. *)
Ltac to_spec :=
  rewrite ?leb_spec, ?ltb_spec, ?eqb_spec, ?div_spec, ?sub_spec,
    ?Prim2SF_0, ?Prim2SF_1, ?Prim2SF_infinity in *;
  unfold SF64div, SF64sub, SFzero, SFone, SFinf in *.

Ltac spec_cases x :=
  let V := fresh "V" in
  pose proof (Prim2SF_valid x) as V; revert V;
  destruct (Prim2SF x) as [[]|[]| |[] ? ?]; intros V.

(** Dividing by a positive number that is not larger gives at least 1. *)
Lemma div_ge_one d x :
  (0 <? d) = true -> (d <=? x) = true -> (x <? infinity) = true ->
  (1 <=? x / d) = true.
Proof.
  to_spec. spec_cases x; spec_cases d; intros H0 Hle Hinf; try discriminate.
  apply SFdiv_finite_ge_one; assumption.
Qed.

Ltac div_desc :=
  repeat match goal with
  | |- context [SFdiv prec emax (S754_finite ?s ?m ?e) (S754_finite ?s' ?m' ?e')] =>
      let a := fresh "a" in let B := fresh "B" in let g := fresh "g" in
      let H := fresh "HNF" in
      destruct (SFdiv_finite s m e s' m' e') as (a & B & g & H & _ & ->)
  end;
  cbn [SFdiv xorb];
  first [ reflexivity
        | apply SFleb_zero_finish; assumption
        | apply SFleb_finish_inf; assumption ].

(** Division by a positive number is monotone. *)
Lemma div_mono d x1 x2 :
  (0 <? d) = true -> (0 <=? x1) = true -> (x1 <=? x2) = true ->
  (d <? infinity) || (x2 <? infinity) = true ->
  (x1 / d <=? x2 / d) = true.
Proof.
  to_spec. spec_cases x1; spec_cases x2; spec_cases d;
    cbn [SFltb SFleb SFcompare orb]; intros H0 H1 H12 Hfin; try discriminate;
    first [ apply SFdiv_finite_mono; assumption | div_desc ].
Qed.

Lemma div_nonneg d x :
  (0 <? d) = true -> (0 <=? x) = true ->
  (d <? infinity) || (x <? infinity) = true ->
  (0 <=? x / d) = true.
Proof.
  to_spec. spec_cases x; spec_cases d;
    cbn [SFltb SFleb SFcompare orb]; intros H0 H1 Hfin; try discriminate;
    div_desc.
Qed.

(** Subtracting an earlier time is monotone, and the time that has passed
    is a finite non-negative number. *)
Lemma sub_mono s n1 n2 :
  (0 <=? s) = true -> (s <=? n1) = true -> (n1 <=? n2) = true ->
  (n2 <? infinity) = true ->
  (n1 - s <=? n2 - s) = true.
Proof.
  to_spec. spec_cases s; spec_cases n1; spec_cases n2;
    intros H0 H1 H12 Hfin; try discriminate;
    first [ apply SFsub_finite_mono; assumption
          | cbn [SFsub]; first [reflexivity | assumption] ].
Qed.

Lemma SFsub_finite_nonneg ms es m e :
  valid_binary (S754_finite false ms es) = true ->
  valid_binary (S754_finite false m e) = true ->
  SFleb (S754_finite false ms es) (S754_finite false m e) = true ->
  SFleb (S754_zero false)
        (SFsub prec emax (S754_finite false m e) (S754_finite false ms es)) = true.
Proof.
  intros Hs Hn Hle.
  destruct (SFsub_finite _ _ _ _ Hn Hs Hle) as (Hd & Hz & Hp).
  destruct (Z.eq_dec (Z.pos m * 2 ^ (e - Z.min e es)
                      - Z.pos ms * 2 ^ (es - Z.min e es)) 0) as [E|E].
  - rewrite (Hz E). reflexivity.
  - destruct (Hp ltac:(lia)) as (a & B & g & HNF & _ & ->).
    apply SFleb_zero_finish. exact HNF.
Qed.

Lemma sub_nonneg s n :
  (0 <=? s) = true -> (s <=? n) = true -> (n <? infinity) = true ->
  (0 <=? n - s) = true.
Proof.
  to_spec. spec_cases s; spec_cases n;
    intros H0 H1 Hfin; try discriminate;
    first [ apply SFsub_finite_nonneg; assumption
          | cbn [SFsub]; reflexivity ].
Qed.

Lemma sub_finite s n :
  (0 <=? s) = true -> (s <=? n) = true -> (n <? infinity) = true ->
  (n - s <? infinity) = true.
Proof.
  to_spec. spec_cases s; spec_cases n;
    intros H0 H1 Hfin; try discriminate;
    first [ match goal with
            | |- SFltb (SFsub _ _ ?x _) _ = true =>
                apply (SFleb_ltb_trans _ x);
                [apply SFsub_finite_le; assumption | reflexivity]
            end
          | cbn [SFsub]; reflexivity ].
Qed.

Lemma leb_trans x y z :
  (x <=? y) = true -> (y <=? z) = true -> (x <=? z) = true.
Proof. to_spec. apply SFleb_trans. Qed.

Lemma ltb_leb x y : (x <? y) = true -> (x <=? y) = true.
Proof.
  to_spec. unfold SFltb, SFleb. destruct (SFcompare _ _) as [[]|]; congruence.
Qed.

Lemma leb_total x y :
  (x =? x) = true -> (y =? y) = true -> (x <? y) = false -> (y <=? x) = true.
Proof.
  to_spec. intros Hx Hy. apply SFleb_total; intros E; rewrite E in *; discriminate.
Qed.

Lemma leb_not_nan x y : (x <=? y) = true -> (x =? x) = true /\ (y =? y) = true.
Proof.
  to_spec. unfold SFleb, SFeqb.
  destruct (Prim2SF x) as [[]|[]| |[] ? ?]; destruct (Prim2SF y) as [[]|[]| |[] ? ?];
    cbn [SFcompare]; intros H; try discriminate;
    rewrite ?Z.compare_refl, ?Pos.compare_cont_refl; split; reflexivity.
Qed.

Lemma ltb_not_leb x y : (x <? y) = true -> (y <=? x) = false.
Proof.
  to_spec. unfold SFleb, SFltb.
  destruct (Prim2SF x) as [[]|[]| |[] ? ?]; destruct (Prim2SF y) as [[]|[]| |[] ? ?];
    cbn [SFcompare]; intros H; try discriminate; try reflexivity; cmp_cases.
Qed.

Lemma get_sign_ge_one x : (1 <=? x) = true -> get_sign x = false.
Proof.
  intros H. unfold get_sign, is_zero, zero.
  assert (E : (x =? 0) = false).
  { revert H. to_spec. spec_cases x; intros H; try discriminate; reflexivity. }
  rewrite E. revert H. to_spec. spec_cases x; intros H; try discriminate; reflexivity.
Qed.

(** [Math.min(x, 1)] *)
Lemma Math_min_lt x : (x <? 1) = true -> JS.Math_min x 1 = x.
Proof.
  intros H. unfold JS.Math_min, is_nan.
  destruct (leb_not_nan _ _ (ltb_leb _ _ H)) as [-> _]. rewrite H. reflexivity.
Qed.

Lemma Math_min_ge x : (1 <=? x) = true -> JS.Math_min x 1 = 1.
Proof.
  intros H. unfold JS.Math_min, is_nan.
  destruct (leb_not_nan _ _ H) as [_ ->].
  destruct (x <? 1) eqn:E.
  { apply ltb_not_leb in E. congruence. }
  rewrite (get_sign_ge_one _ H). cbn [negb orb].
  destruct (1 <? x); reflexivity.
Qed.

Lemma Math_min_nan x : is_nan x = true -> JS.Math_min x 1 = nan.
Proof. intros H. unfold JS.Math_min. rewrite H. reflexivity. Qed.

Lemma Math_min_cases x : (x =? x) = true ->
  ((x <? 1) = true /\ JS.Math_min x 1 = x) \/
  ((1 <=? x) = true /\ JS.Math_min x 1 = 1).
Proof.
  intros Hx. destruct (x <? 1) eqn:E.
  - left. split; [reflexivity | apply Math_min_lt; assumption].
  - right. assert (H : (1 <=? x) = true) by (apply leb_total; auto).
    split; [exact H | apply Math_min_ge; exact H].
Qed.

Lemma Math_min_le_one x : (x =? x) = true -> (JS.Math_min x 1 <=? 1) = true.
Proof.
  intros Hx. destruct (Math_min_cases x Hx) as [[H ->] | [H ->]].
  - apply ltb_leb. exact H.
  - reflexivity.
Qed.

Lemma Math_min_nonneg x : (0 <=? x) = true -> (0 <=? JS.Math_min x 1) = true.
Proof.
  intros H0. destruct (leb_not_nan _ _ H0) as [_ Hx].
  destruct (Math_min_cases x Hx) as [[H ->] | [H ->]]; [exact H0 | reflexivity].
Qed.

Lemma Math_min_mono x y :
  (x <=? y) = true -> (JS.Math_min x 1 <=? JS.Math_min y 1) = true.
Proof.
  intros Hxy. destruct (leb_not_nan _ _ Hxy) as [Hx Hy].
  destruct (Math_min_cases x Hx) as [[H ->] | [H ->]];
    destruct (Math_min_cases y Hy) as [[H' ->] | [H' ->]].
  - exact Hxy.
  - apply ltb_leb. exact H.
  - pose proof (leb_trans _ _ _ H Hxy) as H1.
    apply ltb_not_leb in H'. congruence.
  - reflexivity.
Qed.

Lemma leb_ltb_trans x y z :
  (x <=? y) = true -> (y <? z) = true -> (x <? z) = true.
Proof. to_spec. apply SFleb_ltb_trans. Qed.

Lemma leb_refl_r x y : (x <=? y) = true -> (y <=? y) = true.
Proof.
  to_spec. unfold SFleb.
  destruct (Prim2SF x) as [[]|[]| |[] ? ?]; destruct (Prim2SF y) as [[]|[]| |[] ? ?];
    cbn [SFcompare]; intros H; try discriminate;
    rewrite ?Z.compare_refl, ?Pos.compare_cont_refl; reflexivity.
Qed.

(** The quotient of a time that has passed and a positive duration only
    grows with the time, and its clamp stays in the unit interval. *)
Lemma clamp_mono d t1 t2 :
  (0 <? d) = true -> (0 <=? t1) = true -> (t1 <=? t2) = true ->
  (d <? infinity) || (t2 <? infinity) = true ->
  (JS.Math_min (t1 / d) 1 <=? JS.Math_min (t2 / d) 1) = true.
Proof.
  intros Hd H1 H12 Hfin. apply Math_min_mono, div_mono; assumption.
Qed.

Lemma clamp_unit d t :
  (0 <? d) = true -> (0 <=? t) = true ->
  (d <? infinity) || (t <? infinity) = true ->
  (0 <=? JS.Math_min (t / d) 1) = true /\ (JS.Math_min (t / d) 1 <=? 1) = true.
Proof.
  intros Hd Ht Hfin. pose proof (div_nonneg d t Hd Ht Hfin) as H.
  split; [apply Math_min_nonneg; exact H|].
  apply Math_min_le_one. apply (leb_not_nan _ _ H).
Qed.

(** Before the duration has passed the quotient is below [1]. *)
Lemma div_lt_one d x :
  (0 <? d) = true -> (0 <=? x) = true -> (x <? d) = true ->
  (x / d <? 1) = true.
Proof.
  to_spec. spec_cases x; spec_cases d; intros H0 Hx Hlt; try discriminate;
    first [ apply SFdiv_finite_lt_one; assumption | reflexivity ].
Qed.

(** With a negative duration the quotient of a time that has passed is
    below [1], or NaN. *)
Lemma div_neg d x :
  (d <? 0) = true -> (0 <=? x) = true ->
  (x / d <? 1) = true \/ is_nan (x / d) = true.
Proof.
  unfold is_nan. to_spec. spec_cases x; spec_cases d; intros Hd Hx;
    try discriminate;
    first [ left; reflexivity | right; reflexivity
          | left;
            match goal with
            | |- SFltb (SFdiv _ _ (S754_finite ?s ?m ?e) (S754_finite ?s' ?m' ?e')) _ = true =>
                let a := fresh "a" in let B := fresh "B" in let g := fresh "g" in
                let H := fresh "HNF" in
                destruct (SFdiv_finite s m e s' m' e') as (a & B & g & H & _ & ->);
                apply SFltb_finish_neg_one; exact H
            end ].
Qed.

(** A positive time divided by the duration [+0] is infinite. *)
Lemma div_zero x : (0 <? x) = true -> (1 <=? x / 0) = true.
Proof.
  to_spec. spec_cases x; intros Hx; try discriminate; reflexivity.
Qed.

Lemma ltb_total x y :
  (x =? x) = true -> (y =? y) = true -> (y <=? x) = false -> (x <? y) = true.
Proof.
  to_spec. intros Hx Hy. apply SFltb_total; intros E; rewrite E in *; discriminate.
Qed.

Lemma ltb_asym x y : (x <? y) = true -> (y <? x) = false.
Proof. to_spec. apply SFltb_asym. Qed.

Lemma ltb_not_eqb x y : (x <? y) = true -> (x =? y) = false.
Proof. to_spec. apply SFltb_not_eqb. Qed.

(** [Math.min(x, 1)] is never above [1], and it is [1] exactly when [x] is
    at least [1]. *)
Lemma Math_min_not_above x : (1 <? JS.Math_min x 1) = false.
Proof.
  unfold JS.Math_min.
  destruct (is_nan x || is_nan 1); [reflexivity|].
  destruct (x <? 1) eqn:E; [apply ltb_asym; exact E|].
  destruct (1 <? x) eqn:E'; [reflexivity|].
  destruct (get_sign x); [exact E' | reflexivity].
Qed.

Lemma Math_min_eq_one x : JS.strict_eq (JS.Math_min x 1) 1 = (1 <=? x).
Proof.
  unfold JS.strict_eq. destruct (x =? x) eqn:Hx.
  - destruct (Math_min_cases x Hx) as [[H ->] | [H ->]].
    + rewrite (ltb_not_eqb _ _ H), (ltb_not_leb _ _ H). reflexivity.
    + rewrite H. reflexivity.
  - rewrite Math_min_nan by (unfold is_nan; rewrite Hx; reflexivity).
    destruct (1 <=? x) eqn:H; [|reflexivity].
    destruct (leb_not_nan _ _ H) as [_ Hx']. congruence.
Qed.

End NumberFacts.

(** ** The frame loop *)

Section FrameFacts.

Variable throws : list call -> bool.

Lemma forEach_prefix cbs c : forall log,
  exists k, k <= length cbs /\
    snd (forEach throws cbs c log)
    = log ++ map (fun cb => (cb, c)) (firstn k cbs) /\
    (fst (forEach throws cbs c log) = Normal -> k = length cbs).
Proof.
  induction cbs as [|cb rest IH]; intros log; cbn [forEach].
  - exists 0. rewrite app_nil_r. auto.
  - destruct (throws (log ++ [(cb, c)])) eqn:E.
    + exists 1. cbn. split; [lia|]. split; [reflexivity|discriminate].
    + destruct (IH (log ++ [(cb, c)])) as (k & Hk & Hs & Hn).
      exists (S k). cbn [length firstn map]. split; [lia|]. split.
      * rewrite Hs, <- app_assoc. reflexivity.
      * intros H. rewrite (Hn H). reflexivity.
Qed.

Lemma forEach_normal cbs c log :
  fst (forEach throws cbs c log) = Normal ->
  forEach throws cbs c log = (Normal, log ++ map (fun cb => (cb, c)) cbs).
Proof.
  intros H. destruct (forEach_prefix cbs c log) as (k & _ & Hs & Hn).
  rewrite (Hn H), firstn_all in Hs.
  destruct (forEach throws cbs c log) as [o l]. cbn in *. congruence.
Qed.

Lemma forEach_throw_at cbs c : forall k log,
  k < length cbs ->
  (forall j, j < k ->
     throws (log ++ map (fun cb => (cb, c)) (firstn (S j) cbs)) = false) ->
  throws (log ++ map (fun cb => (cb, c)) (firstn (S k) cbs)) = true ->
  forEach throws cbs c log
  = (Throw, log ++ map (fun cb => (cb, c)) (firstn (S k) cbs)).
Proof.
  induction cbs as [|cb rest IH]; intros k log Hk Hbefore Hat; cbn in Hk; [lia|].
  cbn [forEach]. unfold call in *. destruct k as [|k].
  - cbn in Hat. rewrite Hat. reflexivity.
  - pose proof (Hbefore 0 ltac:(lia)) as H0. cbn in H0. rewrite H0.
    rewrite (IH k (log ++ [(cb, c)])).
    + cbn [firstn map]. rewrite <- app_assoc. reflexivity.
    + lia.
    + intros j Hj. specialize (Hbefore (S j) ltac:(lia)).
      cbn [firstn map] in Hbefore. rewrite <- app_assoc. exact Hbefore.
    + cbn [firstn map] in Hat. rewrite <- app_assoc. exact Hat.
Qed.

Lemma forEach_never_throws cbs c : never_throws throws -> forall log,
  forEach throws cbs c log = (Normal, log ++ map (fun cb => (cb, c)) cbs).
Proof.
  intros Hn. induction cbs as [|cb rest IH]; intros log; cbn [forEach].
  - rewrite app_nil_r. reflexivity.
  - rewrite Hn, IH, <- app_assoc. reflexivity.
Qed.

Lemma In_firstn (A : Type) (x : A) k l : In x (firstn k l) -> In x l.
Proof.
  intros H. rewrite <- (firstn_skipn k l). apply in_or_app. left. exact H.
Qed.

Lemma new_calls_app s s' l : calls s' = calls s ++ l -> new_calls s s' = l.
Proof.
  intros H. unfold new_calls. rewrite H, skipn_app, skipn_all, Nat.sub_diag.
  reflexivity.
Qed.

Lemma frame_normal now s :
  fst (_animationFrame throws now s) = Normal ->
  _animationFrame throws now s
  = (Normal,
     mkWorld
       (fst (_afterAnimationFrame (_getAnimationCompletionCoefficient now (animator s))
               (animator s) (window s)))
       (snd (_afterAnimationFrame (_getAnimationCompletionCoefficient now (animator s))
               (animator s) (window s)))
       (calls s ++ map (fun cb => (cb, _getAnimationCompletionCoefficient now (animator s)))
                       (_callbacks (animator s)))).
Proof.
  unfold _animationFrame.
  set (c := _getAnimationCompletionCoefficient now (animator s)).
  destruct (forEach throws (_callbacks (animator s)) c (calls s)) as [o l] eqn:E.
  destruct o.
  - intros _. pose proof (forEach_normal (_callbacks (animator s)) c (calls s)) as H.
    rewrite E in H. specialize (H eq_refl). injection H as ->.
    destruct (_afterAnimationFrame c (animator s) (window s)). reflexivity.
  - discriminate.
Qed.

Lemma frame_calls now s :
  exists k, k <= length (_callbacks (animator s)) /\
    calls (snd (_animationFrame throws now s))
    = calls s ++ map (fun cb => (cb, _getAnimationCompletionCoefficient now (animator s)))
                     (firstn k (_callbacks (animator s))).
Proof.
  unfold _animationFrame.
  set (c := _getAnimationCompletionCoefficient now (animator s)).
  destruct (forEach_prefix (_callbacks (animator s)) c (calls s)) as (k & Hk & Hs & _).
  exists k. split; [exact Hk|].
  destruct (forEach throws (_callbacks (animator s)) c (calls s)) as [[] l];
    cbn [snd] in Hs; subst l;
    [destruct (_afterAnimationFrame c (animator s) (window s))|]; reflexivity.
Qed.

Lemma frame_callbacks now s :
  _callbacks (animator (snd (_animationFrame throws now s))) = _callbacks (animator s)
  /\ _duration (animator (snd (_animationFrame throws now s))) = _duration (animator s).
Proof.
  unfold _animationFrame.
  destruct (forEach throws _ _ _) as [[] l]; [|split; reflexivity].
  unfold _afterAnimationFrame.
  destruct (JS.strict_eq _ _); split; reflexivity.
Qed.

Lemma forEach_head cb rest c log :
  exists k, k <= length rest /\
    snd (forEach throws (cb :: rest) c log)
    = log ++ map (fun cb0 => (cb0, c)) (cb :: firstn k rest) /\
    (fst (forEach throws (cb :: rest) c log) = Normal -> k = length rest).
Proof.
  cbn [forEach]. destruct (throws (log ++ [(cb, c)])) eqn:E.
  - exists 0. cbn. split; [lia|]. split; [reflexivity|discriminate].
  - destruct (forEach_prefix rest c (log ++ [(cb, c)])) as (k & Hk & Hs & Hn).
    exists k. split; [exact Hk|]. split; [|exact Hn].
    rewrite Hs, <- app_assoc. reflexivity.
Qed.

Lemma frame_head now s cb rest :
  _callbacks (animator s) = cb :: rest ->
  exists k, k <= length rest /\
    calls (snd (_animationFrame throws now s))
    = calls s ++ map (fun cb0 => (cb0, _getAnimationCompletionCoefficient now (animator s)))
                     (cb :: firstn k rest) /\
    (fst (_animationFrame throws now s) = Normal -> k = length rest).
Proof.
  intros Hc. unfold _animationFrame. rewrite Hc.
  set (c := _getAnimationCompletionCoefficient now (animator s)).
  destruct (forEach_head cb rest c (calls s)) as (k & Hk & Hs & Hn).
  exists k. split; [exact Hk|].
  destruct (forEach throws (cb :: rest) c (calls s)) as [[] l];
    cbn [fst snd] in Hs, Hn; subst l.
  - destruct (_afterAnimationFrame c (animator s) (window s)).
    split; [reflexivity|]. intros _. apply Hn. reflexivity.
  - split; [reflexivity|discriminate].
Qed.

Lemma step_registered s e s' :
  step throws s e = Some s' ->
  _callbacks (animator s') = _callbacks (animator s) ++ registered [e].
Proof.
  intros Hstep. destruct e as [cb|d|now|h now];
    unfold step, startAnimation, requestAnimationFrame in Hstep.
  - injection Hstep as <-. reflexivity.
  - injection Hstep as <-. cbn. rewrite app_nil_r. reflexivity.
  - injection Hstep as <-. cbn. rewrite app_nil_r. reflexivity.
  - destruct (in_dec Pos.eq_dec h (pending (window s))); [|discriminate].
    injection Hstep as <-.
    rewrite (proj1 (frame_callbacks now (dispatch h s))).
    cbn. rewrite app_nil_r. reflexivity.
Qed.

Lemma run_registered : forall es s s',
  run throws s es = Some s' ->
  _callbacks (animator s') = _callbacks (animator s) ++ registered es.
Proof.
  induction es as [|e es IH]; intros s s' Hrun; cbn [run] in Hrun.
  - injection Hrun as <-. cbn. rewrite app_nil_r. reflexivity.
  - destruct (step throws s e) as [s1|] eqn:Hstep; [|discriminate].
    rewrite (IH s1 s' Hrun), (step_registered s e s1 Hstep), <- app_assoc.
    destruct e; reflexivity.
Qed.

End FrameFacts.

(** * The properties of the specification *)

Local Open Scope float_scope.

(** ** Configuration *)

(** C10.  Frame condition on the configuration operations: [addCallback]
    appends exactly one element to the callbacks, keeping the existing
    entries and their order, and changes nothing else; [setDuration]
    replaces the duration and changes nothing else.  Neither touches the
    start time, the frame handle, the host's queue or the invocations made
    so far, in any state. *)
Theorem configuration_frame_condition throws cb d s :
  (_callbacks (addCallback cb (animator s)) = _callbacks (animator s) ++ [cb]
   /\ firstn (length (_callbacks (animator s)))
             (_callbacks (addCallback cb (animator s)))
      = _callbacks (animator s)
   /\ length (_callbacks (addCallback cb (animator s)))
      = S (length (_callbacks (animator s)))
   /\ _duration (addCallback cb (animator s)) = _duration (animator s)
   /\ _animationStartTime (addCallback cb (animator s))
      = _animationStartTime (animator s)
   /\ _requestAnimationFrameID (addCallback cb (animator s))
      = _requestAnimationFrameID (animator s)
   /\ step throws s (CallAddCallback cb)
      = Some (mkWorld (addCallback cb (animator s)) (window s) (calls s)))
  /\
  (_duration (setDuration d (animator s)) = d
   /\ _callbacks (setDuration d (animator s)) = _callbacks (animator s)
   /\ _animationStartTime (setDuration d (animator s))
      = _animationStartTime (animator s)
   /\ _requestAnimationFrameID (setDuration d (animator s))
      = _requestAnimationFrameID (animator s)
   /\ step throws s (CallSetDuration d)
      = Some (mkWorld (setDuration d (animator s)) (window s) (calls s))).
Proof.
  split.
  - cbn [addCallback _callbacks _duration _animationStartTime
         _requestAnimationFrameID step].
    repeat split.
    + rewrite firstn_app, firstn_all, Nat.sub_diag. cbn. apply app_nil_r.
    + rewrite length_app. cbn. lia.
  - repeat split.
Qed.

(** ** One frame *)

(** C6.  Per-frame dispatch: in any life of an animator, a frame that runs
    to its end (no callback throws, which is C9) invokes every callback
    that [addCallback] has registered so far exactly once, in the order of
    the registrations, duplicates included, and nothing else; every
    invocation receives the one coefficient computed from the state in
    which the frame began. *)
Theorem per_frame_dispatch throws es s id now :
  run throws init es = Some s ->
  In id (pending (window s)) ->
  fst (_animationFrame throws now (dispatch id s)) = Normal ->
  exists s',
    step throws s (DispatchFrame id now) = Some s'
    /\ _callbacks (animator s) = registered es
    /\ calls s' = calls s ++ new_calls s s'
    /\ new_calls s s'
       = map (fun cb => (cb, _getAnimationCompletionCoefficient now (animator s)))
             (registered es)
    /\ map fst (new_calls s s') = registered es
    /\ coefficients (new_calls s s')
       = repeat (_getAnimationCompletionCoefficient now (animator s))
                (length (registered es)).
Proof.
  intros Hrun Hin Hnormal.
  pose proof (run_registered throws es init s Hrun) as Hreg.
  cbn [init animator Animator_new _callbacks app] in Hreg.
  cbn [step]. destruct (in_dec Pos.eq_dec id (pending (window s))); [|contradiction].
  eexists. split; [reflexivity|]. split; [exact Hreg|].
  rewrite (frame_normal throws now (dispatch id s) Hnormal). cbn [snd calls].
  erewrite new_calls_app by (cbn [calls dispatch]; reflexivity).
  cbn [dispatch animator calls]. rewrite Hreg.
  split; [reflexivity|]. split; [reflexivity|]. split.
  - rewrite map_map. cbn [fst]. apply map_id.
  - unfold coefficients. rewrite map_map. cbn [snd].
    generalize (registered es) as l. clear. intros l.
    induction l as [|cb l IH]; cbn; [|rewrite IH]; reflexivity.
Qed.

Lemma per_frame_dispatch_witness :
  run quiet init
    [CallAddCallback 3; CallAddCallback 4; CallAddCallback 3; CallStartAnimation 0]
  = Some (mkWorld (mkAnimator 200 [3; 4; 3]%nat (Some 0) (Some 1%positive))
                  (mkWindow [1%positive] 2%positive) [])
  /\ exists s',
       step quiet
         (mkWorld (mkAnimator 200 [3; 4; 3]%nat (Some 0) (Some 1%positive))
                  (mkWindow [1%positive] 2%positive) [])
         (DispatchFrame 1 50) = Some s'
       /\ new_calls
            (mkWorld (mkAnimator 200 [3; 4; 3]%nat (Some 0) (Some 1%positive))
                     (mkWindow [1%positive] 2%positive) [])
            s'
          = [(3%nat, 0.25); (4%nat, 0.25); (3%nat, 0.25)].
Proof.
  split; [reflexivity|].
  destruct (per_frame_dispatch quiet
              [CallAddCallback 3; CallAddCallback 4; CallAddCallback 3;
               CallStartAnimation 0]
              (mkWorld (mkAnimator 200 [3; 4; 3]%nat (Some 0) (Some 1%positive))
                       (mkWindow [1%positive] 2%positive) [])
              1%positive 50 eq_refl (or_introl eq_refl) eq_refl)
    as (s' & Hstep & _ & _ & Hnew & _).
  exists s'. split; [exact Hstep|exact Hnew].
Defined.

(** C9.  Callback exception propagation: when the callback at index [k] is
    the first to throw in a frame, the frame ends by that exception: the
    callbacks up to index [k] have been invoked and none after it, no frame
    is requested, and the animator is as it was when the frame began, its
    start time and frame handle included. *)
Theorem callback_exception_propagates throws now s k :
  let c := _getAnimationCompletionCoefficient now (animator s) in
  let invoked j :=
    calls s ++ map (fun cb => (cb, c)) (firstn j (_callbacks (animator s))) in
  k < length (_callbacks (animator s)) ->
  (forall j, j < k -> throws (invoked (S j)) = false) ->
  throws (invoked (S k)) = true ->
  _animationFrame throws now s
  = (Throw, mkWorld (animator s) (window s) (invoked (S k))).
Proof.
  intros c invoked Hk Hbefore Hat. unfold _animationFrame. fold c.
  rewrite (forEach_throw_at throws (_callbacks (animator s)) c k (calls s) Hk Hbefore Hat).
  reflexivity.
Qed.

Lemma callback_exception_propagates_witness :
  _animationFrame second_throws 50
    (mkWorld (mkAnimator 100 [0; 1; 2]%nat (Some 0) (Some 1%positive))
             (mkWindow [] 2%positive) [])
  = (Throw,
     mkWorld (mkAnimator 100 [0; 1; 2]%nat (Some 0) (Some 1%positive))
             (mkWindow [] 2%positive) [(0%nat, 0.5); (1%nat, 0.5)]).
Proof.
  apply (callback_exception_propagates second_throws 50
           (mkWorld (mkAnimator 100 [0; 1; 2]%nat (Some 0) (Some 1%positive))
                    (mkWindow [] 2%positive) []) 1).
  - cbn. lia.
  - intros j Hj. assert (j = 0%nat) as -> by lia. reflexivity.
  - reflexivity.
Defined.

(** ** The coefficient *)

(** C2.  Coefficient formula: in any life of an animator with at least one
    registered callback, every frame invokes the first registered callback
    and passes to it, and to every further callback it invokes,
    [Math.min((now - start) / duration, 1)] with the start time and the
    duration the animator holds when the frame begins.  The quotient is
    clamped from above only: a quotient below [1] is passed on as it is, a
    quotient of at least [1] is passed as [1], and NaN is passed as NaN.
    So a registered callback receives a negative coefficient when the clock
    reads less than the start time or the duration is negative, and minus
    infinity or NaN when the duration is zero. *)
Theorem coefficient_formula :
  (forall throws es s id now cb rest,
     run throws init es = Some s ->
     registered es = cb :: rest ->
     In id (pending (window s)) ->
     exists s' k,
       step throws s (DispatchFrame id now) = Some s'
       /\ (k <= length rest)%nat
       /\ (fst (_animationFrame throws now (dispatch id s)) = Normal ->
           k = length rest)
       /\ new_calls s s'
          = map (fun cb0 =>
                   (cb0,
                    JS.Math_min
                      ((now - JS.ToNumber (_animationStartTime (animator s)))
                       / _duration (animator s)) 1))
                (cb :: firstn k rest)
       /\ (num_lt (ratio now (animator s)) 1 ->
           new_calls s s'
           = map (fun cb0 => (cb0, ratio now (animator s))) (cb :: firstn k rest))
       /\ (num_le 1 (ratio now (animator s)) ->
           new_calls s s' = map (fun cb0 => (cb0, 1)) (cb :: firstn k rest))
       /\ (is_nan (ratio now (animator s)) = true ->
           new_calls s s' = map (fun cb0 => (cb0, nan)) (cb :: firstn k rest)))
  /\ (num_lt 900 1000
      /\ option_map calls
           (run quiet init
              [CallAddCallback 7; CallAddCallback 8; CallStartAnimation 1000;
               DispatchFrame 1 900])
         = Some [(7%nat, -0.5); (8%nat, -0.5)])
  /\ option_map calls
       (run quiet init
          [CallAddCallback 7; CallSetDuration (-200); CallStartAnimation 0;
           DispatchFrame 1 100])
     = Some [(7%nat, -0.5)]
  /\ option_map calls
       (run quiet init
          [CallAddCallback 7; CallSetDuration 0; CallStartAnimation 1000;
           DispatchFrame 1 900])
     = Some [(7%nat, neg_infinity)]
  /\ option_map calls
       (run quiet init
          [CallAddCallback 7; CallSetDuration 0; CallStartAnimation 1000;
           DispatchFrame 1 1000])
     = Some [(7%nat, nan)].
Proof.
  split.
  - intros throws es s id now cb rest Hrun Hreg Hin.
    pose proof (run_registered throws es init s Hrun) as Hcbs.
    cbn [init animator Animator_new _callbacks app] in Hcbs.
    rewrite Hreg in Hcbs.
    destruct (frame_head throws now (dispatch id s) cb rest Hcbs)
      as (k & Hk & Hcalls & Hn).
    cbn [dispatch animator calls] in Hcalls.
    cbn [step]. destruct (in_dec Pos.eq_dec id (pending (window s))); [|contradiction].
    exists (snd (_animationFrame throws now (dispatch id s))), k.
    split; [reflexivity|]. split; [exact Hk|]. split; [exact Hn|].
    rewrite (new_calls_app _ _ _ Hcalls).
    unfold _getAnimationCompletionCoefficient. fold (ratio now (animator s)).
    split; [reflexivity|]. split; [|split].
    + intros H. rewrite (NumberFacts.Math_min_lt _ H). reflexivity.
    + intros H. rewrite (NumberFacts.Math_min_ge _ H). reflexivity.
    + intros H. rewrite (NumberFacts.Math_min_nan _ H). reflexivity.
  - split; [split; reflexivity|]. split; [reflexivity|]. split; reflexivity.
Qed.

Lemma coefficient_formula_witness :
  run quiet init [CallAddCallback 7; CallAddCallback 8; CallStartAnimation 1000]
  = Some (mkWorld (mkAnimator 200 [7; 8]%nat (Some 1000) (Some 1%positive))
                  (mkWindow [1%positive] 2%positive) [])
  /\ num_lt (ratio 900 (mkAnimator 200 [7; 8]%nat (Some 1000) (Some 1%positive))) 1
  /\ exists s',
       step quiet
         (mkWorld (mkAnimator 200 [7; 8]%nat (Some 1000) (Some 1%positive))
                  (mkWindow [1%positive] 2%positive) [])
         (DispatchFrame 1 900) = Some s'
       /\ new_calls
            (mkWorld (mkAnimator 200 [7; 8]%nat (Some 1000) (Some 1%positive))
                     (mkWindow [1%positive] 2%positive) [])
            s'
          = [(7%nat, -0.5); (8%nat, -0.5)].
Proof.
  split; [reflexivity|]. split; [reflexivity|].
  destruct (proj1 coefficient_formula quiet
              [CallAddCallback 7; CallAddCallback 8; CallStartAnimation 1000]
              (mkWorld (mkAnimator 200 [7; 8]%nat (Some 1000) (Some 1%positive))
                       (mkWindow [1%positive] 2%positive) [])
              1%positive 900 7%nat [8%nat] eq_refl eq_refl (or_introl eq_refl))
    as (s' & k & Hstep & _ & Hk & _ & Hlt & _).
  exists s'. split; [exact Hstep|].
  rewrite (Hlt eq_refl), (Hk eq_refl). reflexivity.
Defined.

(** C1.  Completion exactness: with a positive duration, a frame whose
    clock reading has [now - start >= duration] (the elapsed time being a
    finite number, as differences of clock readings are) computes the
    coefficient [1] exactly, and every callback it invokes receives [1].
    When the frame runs to its end (no callback throws, which is C9), every
    callback has been invoked, the start time and the frame handle are
    [null], and the frame has requested no further frame. *)
Theorem completion_exactness throws now s :
  num_lt 0 (_duration (animator s)) ->
  num_le (_duration (animator s))
         (now - JS.ToNumber (_animationStartTime (animator s))) ->
  num_lt (now - JS.ToNumber (_animationStartTime (animator s))) infinity ->
  _getAnimationCompletionCoefficient now (animator s) = 1
  /\ Forall (fun c => c = 1)
       (coefficients (new_calls s (snd (_animationFrame throws now s))))
  /\ (fst (_animationFrame throws now s) = Normal ->
      new_calls s (snd (_animationFrame throws now s))
      = map (fun cb => (cb, 1)) (_callbacks (animator s))
      /\ _animationStartTime (animator (snd (_animationFrame throws now s))) = None
      /\ _requestAnimationFrameID (animator (snd (_animationFrame throws now s)))
         = None
      /\ window (snd (_animationFrame throws now s)) = window s).
Proof.
  intros Hd Hle Hfin.
  assert (Hc : _getAnimationCompletionCoefficient now (animator s) = 1).
  { apply NumberFacts.Math_min_ge.
    apply NumberFacts.div_ge_one; assumption. }
  split; [exact Hc|]. split.
  - destruct (frame_calls throws now s) as (k & _ & H).
    rewrite (new_calls_app _ _ _ H), Hc. unfold coefficients.
    rewrite map_map. cbn [snd]. apply Forall_forall.
    intros c Hin. apply in_map_iff in Hin. destruct Hin as (cb & <- & _). reflexivity.
  - intros Hn. rewrite (frame_normal throws now s Hn), Hc. cbn [snd animator window].
    erewrite new_calls_app by (cbn [calls]; reflexivity).
    repeat split.
Qed.

Lemma completion_exactness_witness :
  num_lt 0 100 /\ num_le 100 (101 - 0) /\ num_lt (101 - 0) infinity
  /\ new_calls scenario (snd (_animationFrame quiet 101 scenario))
     = [(0%nat, 1); (1%nat, 1)]
  /\ _animationStartTime (animator (snd (_animationFrame quiet 101 scenario))) = None
  /\ pending (window (snd (_animationFrame quiet 101 scenario))) = [].
Proof.
  pose proof (completion_exactness quiet 101 scenario eq_refl eq_refl eq_refl)
    as (_ & _ & Hend).
  destruct (Hend eq_refl) as (Hcalls & Hstart & _ & Hwin).
  do 3 (split; [reflexivity|]).
  split; [exact Hcalls|]. split; [exact Hstart|]. rewrite Hwin. reflexivity.
Defined.

(** ** Starting and configuring while a run is in progress *)

(** C7.  Re-entrant start: [startAnimation] while a run is in progress is
    not an error.  It stores the new clock reading as the start time and
    requests one more frame; the requests already pending stay pending.
    Every coefficient computed afterwards is measured from the new start
    time. *)
Theorem reentrant_start throws now t0 s :
  _animationStartTime (animator s) = Some t0 ->
  exists s',
    step throws s (CallStartAnimation now) = Some s'
    /\ _animationStartTime (animator s') = Some now
    /\ _requestAnimationFrameID (animator s') = Some (next_handle (window s))
    /\ pending (window s') = pending (window s) ++ [next_handle (window s)]
    /\ calls s' = calls s
    /\ _callbacks (animator s') = _callbacks (animator s)
    /\ _duration (animator s') = _duration (animator s)
    /\ forall now',
         _getAnimationCompletionCoefficient now' (animator s')
         = JS.Math_min ((now' - now) / _duration (animator s)) 1.
Proof.
  intros _. eexists. split; [reflexivity|]. repeat split.
Qed.

Lemma reentrant_start_witness :
  exists s',
    step quiet scenario_pending (CallStartAnimation 40) = Some s'
    /\ _animationStartTime (animator s') = Some 40
    /\ pending (window s') = [1%positive; 2%positive]
    /\ _getAnimationCompletionCoefficient 90 (animator s') = 0.5.
Proof.
  destruct (reentrant_start quiet 40 0 scenario_pending eq_refl)
    as (s' & Hstep & Hstart & _ & Hpend & _ & _ & _ & Hcoef).
  exists s'. split; [exact Hstep|]. split; [exact Hstart|].
  split; [exact Hpend|]. rewrite Hcoef. reflexivity.
Defined.

(** C5, as the code has it.  [setDuration] replaces the stored duration and
    nothing else; the invocations already made stay as they are.  Every
    frame computed after the call divides by the new duration, the
    remaining frames of a run in progress included. *)
Theorem setDuration_applies_to_next_frame throws d s :
  exists s',
    step throws s (CallSetDuration d) = Some s'
    /\ _duration (animator s') = d
    /\ _animationStartTime (animator s') = _animationStartTime (animator s)
    /\ _requestAnimationFrameID (animator s') = _requestAnimationFrameID (animator s)
    /\ _callbacks (animator s') = _callbacks (animator s)
    /\ window s' = window s
    /\ calls s' = calls s
    /\ forall now,
         _getAnimationCompletionCoefficient now (animator s')
         = JS.Math_min
             ((now - JS.ToNumber (_animationStartTime (animator s))) / d) 1.
Proof.
  eexists. split; [reflexivity|]. repeat split.
Qed.

(** C5 fails as stated: a run with duration 200 started at time [0] gives
    its callback [0.25] at time 50 and [0.5] at time 100; when the duration
    is set to 400 between the two frames, the second frame gives [0.25]. *)
Lemma setDuration_changes_run_in_progress :
  option_map (fun s => coefficients (calls s))
    (run quiet init
       [CallAddCallback 7; CallStartAnimation 0; DispatchFrame 1 50;
        DispatchFrame 2 100])
  = Some [0.25; 0.5]
  /\ option_map (fun s => coefficients (calls s))
       (run quiet init
          [CallAddCallback 7; CallStartAnimation 0; DispatchFrame 1 50;
           CallSetDuration 400; DispatchFrame 2 100])
     = Some [0.25; 0.25]
  /\ ~ (forall d now this,
          _getAnimationCompletionCoefficient now (setDuration d this)
          = _getAnimationCompletionCoefficient now this).
Proof.
  split; [reflexivity|]. split; [reflexivity|].
  intros H.
  specialize (H 400 100 (mkAnimator 200 [7%nat] (Some 0) (Some 2%positive))).
  apply (f_equal (fun x => x =? 0.5)) in H. discriminate H.
Qed.

(** ** The run state *)

(** C4 fails as stated.  Two [startAnimation] calls in a row leave two
    requests pending; the frame of the first completes the run and clears
    start time and handle while the second request is still pending, and
    when that stale frame computes a coefficient other than [1] it stores a
    new handle although no start time is set.  And after a callback has
    thrown, the start time stays set while nothing is pending. *)
Lemma run_state_invariant_fails :
  (run quiet init
     [CallStartAnimation 0; CallStartAnimation 0; DispatchFrame 1 200]
   = Some (mkWorld (mkAnimator 200 [] None None)
                   (mkWindow [2%positive] 3%positive) [])
   /\ ~ run_state_invariant
          (mkWorld (mkAnimator 200 [] None None)
                   (mkWindow [2%positive] 3%positive) []))
  /\ (run quiet init
        [CallStartAnimation 0; CallStartAnimation 0; DispatchFrame 1 200;
         CallSetDuration 1000; DispatchFrame 2 300]
      = Some (mkWorld (mkAnimator 1000 [] None (Some 3%positive))
                      (mkWindow [3%positive] 4%positive) [])
      /\ ~ run_fields_invariant
             (mkWorld (mkAnimator 1000 [] None (Some 3%positive))
                      (mkWindow [3%positive] 4%positive) []))
  /\ (run always_throws init
        [CallAddCallback 0; CallStartAnimation 0; DispatchFrame 1 50]
      = Some (mkWorld (mkAnimator 200 [0%nat] (Some 0) (Some 1%positive))
                      (mkWindow [] 2%positive) [(0%nat, 0.25)])
      /\ ~ run_state_invariant
             (mkWorld (mkAnimator 200 [0%nat] (Some 0) (Some 1%positive))
                      (mkWindow [] 2%positive) [(0%nat, 0.25)])).
Proof.
  split; [|split]; (split; [reflexivity|]).
  - intros [_ H]. apply H; [discriminate|reflexivity].
  - intros [_ H]. apply H; [discriminate|reflexivity].
  - intros [H _]. apply H; [discriminate|reflexivity].
Qed.

Lemma lockstep_invariants s :
  lockstep s -> run_state_invariant s /\ run_fields_invariant s.
Proof.
  unfold lockstep, run_state_invariant, run_fields_invariant.
  destruct (_animationStartTime (animator s)), (_requestAnimationFrameID (animator s));
    intros H; try contradiction; rewrite H; repeat split; intros; congruence.
Qed.

Lemma step_lockstep throws s e s' :
  never_throws throws -> lockstep s ->
  match e with
  | CallStartAnimation _ => _animationStartTime (animator s) = None
  | _ => True
  end ->
  step throws s e = Some s' -> lockstep s'.
Proof.
  intros Hn Hl He Hstep. destruct s as [[d cbs st id] [pend next] log].
  unfold lockstep in *. cbn in Hl, He.
  destruct e as [cb|d'|now|h now];
    unfold step, startAnimation, requestAnimationFrame in Hstep;
    cbn [animator window calls pending next_handle] in Hstep.
  - injection Hstep as <-. exact Hl.
  - injection Hstep as <-. exact Hl.
  - injection Hstep as <-. subst st. destruct id; [contradiction|].
    cbn in *. rewrite Hl. reflexivity.
  - destruct (in_dec Pos.eq_dec h pend) as [Hin|]; [|discriminate].
    injection Hstep as <-.
    destruct st as [t|], id as [h'|]; try contradiction;
      subst pend; [|destruct Hin].
    destruct Hin as [<-|[]].
    unfold _animationFrame, dispatch. cbn [animator window calls _callbacks pending next_handle].
    rewrite forEach_never_throws by assumption.
    cbn [remove]. destruct (Pos.eq_dec h' h'); [|congruence].
    unfold _afterAnimationFrame.
    destruct (JS.strict_eq _ _); cbn; reflexivity.
Qed.

Lemma run_lockstep throws : never_throws throws -> forall es s s',
  lockstep s -> starts_when_idle throws s es = true ->
  run throws s es = Some s' -> lockstep s'.
Proof.
  intros Hn. induction es as [|e es IH]; intros s s' Hl Hidle Hrun.
  - injection Hrun as <-. exact Hl.
  - cbn [run starts_when_idle] in *.
    apply andb_true_iff in Hidle. destruct Hidle as [He Hrest].
    destruct (step throws s e) as [s1|] eqn:Hstep; [|discriminate].
    apply (IH s1 s'); [|exact Hrest|exact Hrun].
    apply (step_lockstep throws s e s1 Hn Hl); [|exact Hstep].
    destruct e; try exact I.
    destruct (_animationStartTime (animator s)); [discriminate|reflexivity].
Qed.

(** C4, as the code has it.  When no callback throws and [startAnimation]
    is only called while no run is in progress, every reachable state has
    start time, frame handle and the host's queue in lockstep: the start
    time is set if and only if a frame request is pending, and if and only
    if the handle is set; then the handle names the one pending request.
    [startAnimation] sets start time and handle together, the frame whose
    coefficient is [1] clears them together, and any other frame keeps the
    start time and stores a new handle. *)
Theorem run_state_lockstep throws es s :
  never_throws throws ->
  starts_when_idle throws init es = true ->
  run throws init es = Some s ->
  (lockstep s /\ run_state_invariant s /\ run_fields_invariant s)
  /\ (forall now this w,
        _animationStartTime (fst (startAnimation now this w)) = Some now
        /\ _requestAnimationFrameID (fst (startAnimation now this w))
           = Some (next_handle w))
  /\ (forall c this w,
        JS.strict_eq c 1 = true ->
        _animationStartTime (fst (_afterAnimationFrame c this w)) = None
        /\ _requestAnimationFrameID (fst (_afterAnimationFrame c this w)) = None)
  /\ (forall c this w,
        JS.strict_eq c 1 = false ->
        _animationStartTime (fst (_afterAnimationFrame c this w))
        = _animationStartTime this
        /\ _requestAnimationFrameID (fst (_afterAnimationFrame c this w))
           = Some (next_handle w)).
Proof.
  intros Hn Hidle Hrun.
  assert (Hl : lockstep s).
  { apply (run_lockstep throws Hn es init s); [reflexivity|assumption..]. }
  split; [split; [exact Hl | apply lockstep_invariants; exact Hl]|].
  split; [intros now this w; split; reflexivity|].
  split; intros c this w Hc; unfold _afterAnimationFrame; rewrite Hc;
    split; reflexivity.
Qed.

Lemma run_state_lockstep_witness :
  never_throws quiet
  /\ starts_when_idle quiet init
       [CallAddCallback 0; CallStartAnimation 0; DispatchFrame 1 50;
        DispatchFrame 2 250; CallStartAnimation 300] = true
  /\ run quiet init
       [CallAddCallback 0; CallStartAnimation 0; DispatchFrame 1 50;
        DispatchFrame 2 250; CallStartAnimation 300]
     = Some (mkWorld (mkAnimator 200 [0%nat] (Some 300) (Some 3%positive))
                     (mkWindow [3%positive] 4%positive)
                     [(0%nat, 0.25); (0%nat, 1)])
  /\ run_state_invariant
       (mkWorld (mkAnimator 200 [0%nat] (Some 300) (Some 3%positive))
                (mkWindow [3%positive] 4%positive)
                [(0%nat, 0.25); (0%nat, 1)]).
Proof.
  split; [intros log; reflexivity|]. split; [reflexivity|]. split; [reflexivity|].
  exact (proj1 (proj2 (proj1
    (run_state_lockstep quiet
       [CallAddCallback 0; CallStartAnimation 0; DispatchFrame 1 50;
        DispatchFrame 2 250; CallStartAnimation 300] _
       (fun log => eq_refl) eq_refl eq_refl)))).
Defined.

(** ** Registration while a run is in progress *)

Lemma step_callbacks_grow throws s e s' :
  step throws s e = Some s' ->
  forall cb, In cb (_callbacks (animator s)) -> In cb (_callbacks (animator s')).
Proof.
  intros Hstep cb Hin. destruct e as [cb'|d|now|h now];
    unfold step, startAnimation, requestAnimationFrame in Hstep.
  - injection Hstep as <-. cbn. apply in_or_app. left. exact Hin.
  - injection Hstep as <-. exact Hin.
  - injection Hstep as <-. exact Hin.
  - destruct (in_dec Pos.eq_dec h (pending (window s))); [|discriminate].
    injection Hstep as <-.
    rewrite (proj1 (frame_callbacks throws now (dispatch h s))). exact Hin.
Qed.

Lemma run_callbacks_grow throws : forall es s s',
  run throws s es = Some s' ->
  forall cb, In cb (_callbacks (animator s)) -> In cb (_callbacks (animator s')).
Proof.
  induction es as [|e es IH]; intros s s' Hrun cb Hin; cbn [run] in Hrun.
  - injection Hrun as <-. exact Hin.
  - destruct (step throws s e) as [s1|] eqn:Hstep; [|discriminate].
    apply (IH s1 s' Hrun). apply (step_callbacks_grow throws s e s1 Hstep). exact Hin.
Qed.

Lemma step_calls_registered throws s e s' :
  calls_registered s -> step throws s e = Some s' -> calls_registered s'.
Proof.
  intros Hreg Hstep cb c Hin.
  destruct e as [cb'|d|now|h now];
    unfold step, startAnimation, requestAnimationFrame in Hstep.
  - injection Hstep as <-. cbn in *. apply in_or_app. left. eauto.
  - injection Hstep as <-. cbn in *. eauto.
  - injection Hstep as <-. cbn in *. eauto.
  - destruct (in_dec Pos.eq_dec h (pending (window s))); [|discriminate].
    injection Hstep as <-.
    rewrite (proj1 (frame_callbacks throws now (dispatch h s))).
    destruct (frame_calls throws now (dispatch h s)) as (k & _ & Hc).
    rewrite Hc in Hin. cbn [dispatch animator calls] in *.
    apply in_app_or in Hin. destruct Hin as [Hin|Hin]; [eauto|].
    apply in_map_iff in Hin. destruct Hin as (cb0 & E & Hin0).
    injection E as -> _. apply (In_firstn _ _ _ _ Hin0).
Qed.

Lemma run_calls_registered throws : forall es s s',
  calls_registered s -> run throws s es = Some s' -> calls_registered s'.
Proof.
  induction es as [|e es IH]; intros s s' Hreg Hrun; cbn [run] in Hrun.
  - injection Hrun as <-. exact Hreg.
  - destruct (step throws s e) as [s1|] eqn:Hstep; [|discriminate].
    apply (IH s1 s'); [|exact Hrun].
    apply (step_calls_registered throws s e s1 Hreg Hstep).
Qed.

(** C8.  Late registration: a callback that is registered at some point of
    the animator's life, and was not registered before, has received
    nothing from the frames dispatched before its registration; every
    frame dispatched after the registration that runs to its end invokes
    it with that frame's coefficient. *)
Theorem late_registration throws es1 s1 cb :
  run throws init es1 = Some s1 ->
  ~ In cb (_callbacks (animator s1)) ->
  (forall c, ~ In (cb, c) (calls s1))
  /\ forall es2 s2 id now,
       run throws s1 (CallAddCallback cb :: es2) = Some s2 ->
       In id (pending (window s2)) ->
       fst (_animationFrame throws now (dispatch id s2)) = Normal ->
       exists s3,
         step throws s2 (DispatchFrame id now) = Some s3
         /\ In (cb, _getAnimationCompletionCoefficient now (animator s2))
               (new_calls s2 s3).
Proof.
  intros Hrun Hfresh. split.
  - intros c Hin. apply Hfresh.
    assert (Hreg : calls_registered s1).
    { apply (run_calls_registered throws es1 init s1); [|exact Hrun].
      intros cb0 c0 []. }
    exact (Hreg cb c Hin).
  - intros es2 s2 id now Hrun2 Hpend Hnormal.
    cbn [run step] in Hrun2.
    assert (Hreg : In cb (_callbacks (animator s2))).
    { apply (run_callbacks_grow throws es2 _ s2 Hrun2).
      cbn. apply in_or_app. right. left. reflexivity. }
    cbn [step]. destruct (in_dec Pos.eq_dec id (pending (window s2))); [|contradiction].
    eexists. split; [reflexivity|].
    rewrite (frame_normal throws now (dispatch id s2) Hnormal). cbn [snd].
    erewrite new_calls_app by (cbn [calls dispatch]; reflexivity).
    apply in_map_iff. exists cb. split; [reflexivity|exact Hreg].
Qed.

Lemma late_registration_witness :
  run quiet init [CallAddCallback 0; CallStartAnimation 0; DispatchFrame 1 50]
  = Some (mkWorld (mkAnimator 200 [0%nat] (Some 0) (Some 2%positive))
                  (mkWindow [2%positive] 3%positive) [(0%nat, 0.25)])
  /\ ~ In 1%nat [0%nat]
  /\ (forall c, ~ In (1%nat, c) [(0%nat, 0.25)])
  /\ exists s3,
       step quiet
         (mkWorld (mkAnimator 200 [0; 1]%nat (Some 0) (Some 2%positive))
                  (mkWindow [2%positive] 3%positive) [(0%nat, 0.25)])
         (DispatchFrame 2 100) = Some s3
       /\ In (1%nat, 0.5)
             (new_calls
                (mkWorld (mkAnimator 200 [0; 1]%nat (Some 0) (Some 2%positive))
                         (mkWindow [2%positive] 3%positive) [(0%nat, 0.25)])
                s3).
Proof.
  assert (Hfresh : ~ In 1%nat [0%nat]) by (intros [H|[]]; discriminate H).
  destruct (late_registration quiet
              [CallAddCallback 0; CallStartAnimation 0; DispatchFrame 1 50]
              _ 1%nat eq_refl Hfresh) as [Hbefore Hafter].
  split; [reflexivity|]. split; [exact Hfresh|]. split; [exact Hbefore|].
  exact (Hafter [] _ 2%positive 100 eq_refl (or_introl eq_refl) eq_refl).
Defined.

(** ** Monotone coefficients *)

(** C3 fails as stated.  With a negative duration a frame passes a negative
    coefficient; and when the duration is made longer while a run is in
    progress, the coefficient goes down from one frame to the next although
    the clock readings go up. *)
Lemma coefficient_bounds_fail :
  (option_map (fun s => coefficients (calls s))
     (run quiet init
        [CallAddCallback 7; CallSetDuration (-128); CallStartAnimation 0;
         DispatchFrame 1 16])
   = Some [(-0.125)]
   /\ ~ in_unit_interval (-0.125))
  /\ (option_map (fun s => coefficients (calls s))
        (run quiet init
           [CallAddCallback 7; CallStartAnimation 0; DispatchFrame 1 100;
            CallSetDuration 400; DispatchFrame 2 150])
      = Some [0.5; 0.375]
      /\ ~ StronglySorted num_le [0.5; 0.375]).
Proof.
  split; (split; [reflexivity|]).
  - intros [H _]. discriminate H.
  - intros H. inversion H as [|a l _ Hall]; subst.
    inversion Hall as [|x l' Hx _]; subst. discriminate Hx.
Qed.

Lemma StronglySorted_app (A : Type) (R : A -> A -> Prop) l1 l2 :
  StronglySorted R l1 -> StronglySorted R l2 ->
  (forall x y, In x l1 -> In y l2 -> R x y) ->
  StronglySorted R (l1 ++ l2).
Proof.
  induction l1 as [|a l1 IH]; intros H1 H2 H12; [exact H2|].
  cbn. inversion H1 as [|a' l' Hs Hall]; subst. constructor.
  - apply IH; [exact Hs | exact H2 |].
    intros x y Hx Hy. apply H12; [right; exact Hx | exact Hy].
  - apply Forall_app. split; [exact Hall|].
    apply Forall_forall. intros y Hy. apply H12; [left; reflexivity | exact Hy].
Qed.

Lemma coefficients_const c (l : list callback) :
  coefficients (map (fun cb => (cb, c)) l) = repeat c (length l).
Proof.
  unfold coefficients. induction l as [|cb l IH]; cbn; [reflexivity|].
  rewrite IH. reflexivity.
Qed.

Lemma StronglySorted_repeat c n : num_le c c -> StronglySorted num_le (repeat c n).
Proof.
  intros Hc. induction n as [|n IH]; cbn; constructor; [exact IH|].
  apply Forall_forall. intros y Hy. apply repeat_spec in Hy. subst y. exact Hc.
Qed.

(** One more frame of a run keeps its coefficients steady. *)
Lemma steady_frame d t0 prev now L (l : list callback) :
  num_lt 0 d -> num_le 0 t0 -> num_le t0 prev -> num_le prev now ->
  num_lt now infinity ->
  steady (coefficient_at d t0 prev) L ->
  steady (coefficient_at d t0 now)
         (L ++ map (fun cb => (cb, coefficient_at d t0 now)) l).
Proof.
  unfold num_lt, num_le. intros Hd H0 Hprev Hnow Hfin (Hsort & Hunit & Hbound).
  assert (Ht0now : (t0 <=? now) = true) by (apply (NumberFacts.leb_trans _ prev); assumption).
  assert (Hprevfin : (prev <? infinity) = true)
    by (apply (NumberFacts.leb_ltb_trans _ now); assumption).
  assert (Hel : (0 <=? now - t0) = true) by (apply NumberFacts.sub_nonneg; assumption).
  assert (Help : (0 <=? prev - t0) = true) by (apply NumberFacts.sub_nonneg; assumption).
  assert (Hf : (d <? infinity) || (now - t0 <? infinity) = true).
  { rewrite (NumberFacts.sub_finite t0 now) by assumption. apply orb_true_r. }
  assert (Hmono : (coefficient_at d t0 prev <=? coefficient_at d t0 now) = true).
  { apply NumberFacts.clamp_mono; try assumption.
    apply NumberFacts.sub_mono; assumption. }
  destruct (NumberFacts.clamp_unit d (now - t0) Hd Hel Hf) as [Hc0 Hc1].
  fold (coefficient_at d t0 now) in Hc0, Hc1.
  assert (Hcc : num_le (coefficient_at d t0 now) (coefficient_at d t0 now))
    by (apply (NumberFacts.leb_refl_r _ _ Hc0)).
  unfold steady, coefficients. rewrite !map_app.
  fold (coefficients L).
  fold (coefficients (map (fun cb => (cb, coefficient_at d t0 now)) l)).
  rewrite coefficients_const.
  assert (Hrep : forall y, In y (repeat (coefficient_at d t0 now) (length l)) ->
                           y = coefficient_at d t0 now)
    by (intros y Hy; apply (repeat_spec _ _ _ Hy)).
  split; [|split].
  - apply StronglySorted_app; [exact Hsort | apply StronglySorted_repeat; exact Hcc |].
    intros x y Hx Hy. rewrite (Hrep y Hy).
    rewrite Forall_forall in Hbound.
    apply (NumberFacts.leb_trans _ (coefficient_at d t0 prev)); [apply Hbound; exact Hx | exact Hmono].
  - apply Forall_app. split; [exact Hunit|].
    apply Forall_forall. intros y Hy. rewrite (Hrep y Hy). split; assumption.
  - apply Forall_app. split.
    + rewrite Forall_forall in *. intros x Hx.
      apply (NumberFacts.leb_trans _ (coefficient_at d t0 prev)); [apply Hbound; exact Hx | exact Hmono].
    + apply Forall_forall. intros y Hy. rewrite (Hrep y Hy). exact Hcc.
Qed.


(** What a frame of a run in progress does to the world. *)
Lemma in_run_frame throws d t0 h now s :
  in_run d t0 s -> In h (pending (window s)) ->
  in_run d t0 (snd (_animationFrame throws now (dispatch h s)))
  /\ exists k,
       calls (snd (_animationFrame throws now (dispatch h s)))
       = calls s ++ map (fun cb => (cb, coefficient_at d t0 now))
                        (firstn k (_callbacks (animator s))).
Proof.
  intros (Hd & Hp) Hin.
  destruct Hp as [Hp | (Hstart & h' & Hp)]; rewrite Hp in Hin; [destruct Hin|].
  destruct Hin as [<-|[]].
  assert (Hc : _getAnimationCompletionCoefficient now (animator (dispatch h' s))
               = coefficient_at d t0 now).
  { unfold _getAnimationCompletionCoefficient, coefficient_at.
    cbn [dispatch animator]. rewrite Hstart, Hd. reflexivity. }
  split.
  - split; [rewrite (proj2 (frame_callbacks throws now (dispatch h' s))); exact Hd|].
    unfold _animationFrame.
    destruct (forEach throws _ _ _) as [[] l]; cbn [snd window dispatch pending];
      rewrite ?Hp; cbn [remove]; destruct (Pos.eq_dec h' h'); try congruence.
    + unfold _afterAnimationFrame.
      destruct (JS.strict_eq _ _); cbn; [left; reflexivity|].
      right. split; [exact Hstart | eexists; reflexivity].
    + left. reflexivity.
  - destruct (frame_calls throws now (dispatch h' s)) as (k & _ & Hk).
    exists k. rewrite Hk, Hc. reflexivity.
Qed.

Lemma quiet_run_steady throws d t0 base :
  num_lt 0 d -> num_le 0 t0 ->
  forall es s s' prev L,
    in_run d t0 s -> num_le t0 prev -> calls s = base ++ L ->
    steady (coefficient_at d t0 prev) L ->
    quiet_run prev es -> run throws s es = Some s' ->
    exists L' last, calls s' = base ++ L' /\ steady (coefficient_at d t0 last) L'.
Proof.
  intros Hd H0. induction es as [|e es IH]; intros s s' prev L Hin Hprev Hcalls Hst Hq Hrun.
  - injection Hrun as <-. exists L, prev. split; assumption.
  - destruct e as [cb|d'|now'|h now]; cbn [quiet_run] in Hq; try contradiction;
      cbn [run] in Hrun.
    + cbn [step] in Hrun.
      apply (IH (mkWorld (addCallback cb (animator s)) (window s) (calls s))
                s' prev L); assumption.
    + destruct Hq as (Hnow & Hfin & Hq).
      cbn [step] in Hrun.
      destruct (in_dec Pos.eq_dec h (pending (window s))) as [Hh|]; [|discriminate].
      destruct (in_run_frame throws d t0 h now s Hin Hh) as (Hin' & k & Hk).
      apply (IH (snd (_animationFrame throws now (dispatch h s))) s' now
                (L ++ map (fun cb => (cb, coefficient_at d t0 now))
                          (firstn k (_callbacks (animator s)))));
        try assumption.
      * apply (NumberFacts.leb_trans _ prev); assumption.
      * rewrite Hk, Hcalls, app_assoc. reflexivity.
      * apply (steady_frame d t0 prev now); assumption.
Qed.

(** C3, as the code has it.  In a run with a positive duration that is not
    set again, whose one frame request is pending, that is not started
    again, and whose frames read finite clock values that never decrease
    from the (non-negative) start time on, the coefficients passed to the
    callbacks never decrease and each lies in the closed interval from 0 to
    1.  In particular, for a positive duration [d] and finite elapsed times
    [0 <= t1 <= t2], [min(t1/d, 1) <= min(t2/d, 1)], and [min(t2/d, 1)] lies
    between 0 and 1. *)
Theorem coefficients_steady_in_run throws t0 h s0 es s :
  _animationStartTime (animator s0) = Some t0 ->
  pending (window s0) = [h] ->
  num_lt 0 (_duration (animator s0)) ->
  num_le 0 t0 ->
  quiet_run t0 es ->
  run throws s0 es = Some s ->
  (StronglySorted num_le (coefficients (new_calls s0 s))
   /\ Forall in_unit_interval (coefficients (new_calls s0 s)))
  /\ forall d t1 t2,
       num_lt 0 d -> num_le 0 t1 -> num_le t1 t2 -> num_lt t2 infinity ->
       num_le (JS.Math_min (t1 / d) 1) (JS.Math_min (t2 / d) 1)
       /\ in_unit_interval (JS.Math_min (t2 / d) 1).
Proof.
  intros Hstart Hpend Hd H0 Hq Hrun. split.
  - destruct (quiet_run_steady throws (_duration (animator s0)) t0 (calls s0) Hd H0
                es s0 s t0 []) as (L' & last & Hcalls & Hsort & Hunit & _);
      try assumption.
    + split; [reflexivity|]. right. split; [exact Hstart | exists h; exact Hpend].
    + apply (NumberFacts.leb_refl_r _ _ H0).
    + symmetry. apply app_nil_r.
    + repeat split; constructor.
    + rewrite (new_calls_app s0 s L' Hcalls). split; assumption.
  - unfold num_lt, num_le, in_unit_interval. intros d t1 t2 Hd' H1 H12 Hfin.
    assert (Hf : (d <? infinity) || (t2 <? infinity) = true)
      by (rewrite Hfin; apply orb_true_r).
    split; [apply NumberFacts.clamp_mono; assumption|].
    apply NumberFacts.clamp_unit; try assumption.
    apply (NumberFacts.leb_trans _ t1); assumption.
Qed.

Lemma coefficients_steady_in_run_witness :
  quiet_run 0
    [DispatchFrame 1 16; DispatchFrame 2 33; CallAddCallback 2;
     DispatchFrame 3 101]
  /\ option_map (fun s => coefficients (new_calls scenario_pending s))
       (run quiet scenario_pending
          [DispatchFrame 1 16; DispatchFrame 2 33; CallAddCallback 2;
           DispatchFrame 3 101])
     = Some [16 / 100; 16 / 100; 33 / 100; 33 / 100; 1; 1; 1]
  /\ StronglySorted num_le [16 / 100; 16 / 100; 33 / 100; 33 / 100; 1; 1; 1]
  /\ Forall in_unit_interval [16 / 100; 16 / 100; 33 / 100; 33 / 100; 1; 1; 1].
Proof.
  assert (Hq : quiet_run 0
                 [DispatchFrame 1 16; DispatchFrame 2 33; CallAddCallback 2;
                  DispatchFrame 3 101]).
  { cbn [quiet_run]. repeat split. }
  split; [exact Hq|]. split; [reflexivity|].
  exact (proj1 (coefficients_steady_in_run quiet 0 1%positive scenario_pending
                  [DispatchFrame 1 16; DispatchFrame 2 33; CallAddCallback 2;
                   DispatchFrame 3 101] _
                  eq_refl eq_refl eq_refl eq_refl Hq eq_refl)).
Defined.
(** * Further properties of the code *)

(** ** Frames *)

Lemma forEach_segment throws cbs c : forall log,
  exists k, k <= length cbs /\
    snd (forEach throws cbs c log)
    = log ++ map (fun cb => (cb, c)) (firstn k cbs) /\
    (fst (forEach throws cbs c log) = Normal -> k = length cbs) /\
    (fst (forEach throws cbs c log) = Throw ->
     (1 <= k)%nat /\ throws (snd (forEach throws cbs c log)) = true).
Proof.
  induction cbs as [|cb rest IH]; intros log; cbn [forEach].
  - exists 0%nat. rewrite app_nil_r. repeat split; try lia; discriminate.
  - destruct (throws (log ++ [(cb, c)])) eqn:E.
    + exists 1%nat. cbn [fst snd length firstn map].
      split; [lia|]. split; [reflexivity|]. split; [discriminate|].
      intros _. split; [lia | exact E].
    + destruct (IH (log ++ [(cb, c)])) as (k & Hk & Hs & Hn & Ht).
      exists (S k). cbn [length firstn map]. split; [lia|]. split.
      * rewrite Hs, <- app_assoc. reflexivity.
      * split; [intros H; rewrite (Hn H); reflexivity|].
        intros H. destruct (Ht H) as [_ Hthrow]. split; [lia | exact Hthrow].
Qed.

(** In any frame, whether it ends by an exception or not, the invocations
    are an initial segment of the registered callbacks, each entry invoked
    at most once, in order and with the one coefficient of the frame.  The
    segment is the whole list when the frame ends normally; when the frame
    ends by an exception, the last invocation made is the one that threw,
    so a frame with no callbacks never throws. *)
Theorem frame_invokes_initial_segment throws now s :
  exists k,
    k <= length (_callbacks (animator s))
    /\ new_calls s (snd (_animationFrame throws now s))
       = map (fun cb => (cb, _getAnimationCompletionCoefficient now (animator s)))
             (firstn k (_callbacks (animator s)))
    /\ (fst (_animationFrame throws now s) = Normal ->
        k = length (_callbacks (animator s)))
    /\ (fst (_animationFrame throws now s) = Throw ->
        (1 <= k)%nat
        /\ throws (calls (snd (_animationFrame throws now s))) = true).
Proof.
  unfold _animationFrame.
  set (c := _getAnimationCompletionCoefficient now (animator s)).
  destruct (forEach_segment throws (_callbacks (animator s)) c (calls s))
    as (k & Hk & Hs & Hn & Ht).
  exists k. split; [exact Hk|].
  destruct (forEach throws (_callbacks (animator s)) c (calls s)) as [[] l];
    cbn [fst snd] in *; subst l.
  - destruct (_afterAnimationFrame c (animator s) (window s)) as [a w].
    cbn [fst snd]. erewrite new_calls_app by (cbn [calls]; reflexivity).
    split; [reflexivity|]. split; [exact Hn | discriminate].
  - cbn [fst snd calls]. erewrite new_calls_app by (cbn [calls]; reflexivity).
    split; [reflexivity|]. split; [discriminate | exact Ht].
Qed.

(** ** When a run completes *)

Lemma after_frame_cases c this w :
  (JS.strict_eq c 1 = true ->
   _afterAnimationFrame c this w
   = (mkAnimator (_duration this) (_callbacks this) None None, w))
  /\ (JS.strict_eq c 1 = false ->
      _afterAnimationFrame c this w
      = (mkAnimator (_duration this) (_callbacks this) (_animationStartTime this)
                    (Some (next_handle w)),
         mkWindow (pending w ++ [next_handle w]) (Pos.succ (next_handle w)))).
Proof.
  unfold _afterAnimationFrame. split; intros ->; reflexivity.
Qed.

Lemma completes_iff_elapsed d x :
  (0 <? d) = true -> (0 <=? x) = true -> (x <? infinity) = true ->
  JS.strict_eq (JS.Math_min (x / d) 1) 1 = (d <=? x).
Proof.
  intros Hd Hx Hfin. rewrite NumberFacts.Math_min_eq_one.
  destruct (d <=? x) eqn:E.
  - apply NumberFacts.div_ge_one; assumption.
  - apply NumberFacts.ltb_not_leb, NumberFacts.div_lt_one; try assumption.
    apply NumberFacts.ltb_total; try assumption.
    + apply (NumberFacts.leb_not_nan _ _ Hx).
    + apply (NumberFacts.leb_not_nan _ _ (NumberFacts.ltb_leb _ _ Hd)).
Qed.

(** With a positive duration and a finite, non-negative elapsed time, a
    frame computes the coefficient [1] exactly when the elapsed time has
    reached the duration: rounding never completes a run early.  A frame
    that runs to its end before that keeps the start time, requests exactly
    one more frame and stores its handle; from then on it clears the start
    time and the handle and requests nothing. *)
Theorem frame_completes_iff_elapsed throws now s :
  num_lt 0 (_duration (animator s)) ->
  num_le 0 (now - JS.ToNumber (_animationStartTime (animator s))) ->
  num_lt (now - JS.ToNumber (_animationStartTime (animator s))) infinity ->
  JS.strict_eq (_getAnimationCompletionCoefficient now (animator s)) 1
  = (_duration (animator s)
     <=? now - JS.ToNumber (_animationStartTime (animator s)))
  /\ (fst (_animationFrame throws now s) = Normal ->
      if _duration (animator s)
         <=? now - JS.ToNumber (_animationStartTime (animator s))
      then
        _animationStartTime (animator (snd (_animationFrame throws now s))) = None
        /\ _requestAnimationFrameID (animator (snd (_animationFrame throws now s)))
           = None
        /\ window (snd (_animationFrame throws now s)) = window s
      else
        num_lt (_getAnimationCompletionCoefficient now (animator s)) 1
        /\ _animationStartTime (animator (snd (_animationFrame throws now s)))
           = _animationStartTime (animator s)
        /\ _requestAnimationFrameID (animator (snd (_animationFrame throws now s)))
           = Some (next_handle (window s))
        /\ pending (window (snd (_animationFrame throws now s)))
           = pending (window s) ++ [next_handle (window s)]).
Proof.
  intros Hd Hx Hfin.
  pose proof (completes_iff_elapsed _ _ Hd Hx Hfin) as Hc.
  fold (_getAnimationCompletionCoefficient now (animator s)) in Hc.
  split; [exact Hc|]. intros Hn.
  rewrite (frame_normal throws now s Hn). cbn [snd animator window].
  destruct (after_frame_cases (_getAnimationCompletionCoefficient now (animator s))
              (animator s) (window s)) as [Ht Hf].
  destruct (_duration (animator s)
            <=? now - JS.ToNumber (_animationStartTime (animator s))) eqn:E.
  - rewrite (Ht Hc). repeat split.
  - rewrite (Hf Hc). cbn [fst snd]. split; [|repeat split].
    unfold num_lt, _getAnimationCompletionCoefficient.
    assert (Hr : ((now - JS.ToNumber (_animationStartTime (animator s)))
                  / _duration (animator s) <? 1) = true).
    { apply NumberFacts.div_lt_one; try assumption.
      apply NumberFacts.ltb_total; try assumption.
      - apply (NumberFacts.leb_not_nan _ _ Hx).
      - apply (NumberFacts.leb_not_nan _ _ (NumberFacts.ltb_leb _ _ Hd)). }
    rewrite (NumberFacts.Math_min_lt _ Hr). exact Hr.
Qed.

Lemma frame_completes_iff_elapsed_witness :
  num_lt 0 100 /\ num_le 0 (99 - 0) /\ num_lt (99 - 0) infinity
  /\ JS.strict_eq (_getAnimationCompletionCoefficient 99 (animator scenario)) 1
     = false
  /\ _animationStartTime (animator (snd (_animationFrame quiet 99 scenario)))
     = Some 0
  /\ pending (window (snd (_animationFrame quiet 99 scenario))) = [2%positive].
Proof.
  pose proof (frame_completes_iff_elapsed quiet 99 scenario eq_refl eq_refl eq_refl)
    as (Hc & Hend).
  destruct (Hend eq_refl) as (_ & Hstart & _ & Hpend).
  do 3 (split; [reflexivity|]).
  split; [exact Hc|]. split; [exact Hstart | exact Hpend].
Defined.

(** A run whose duration is NaN, or is negative while the elapsed time is
    not, never completes: the coefficient is never [1], so every frame that
    runs to its end keeps the start time and requests one more frame. *)
Theorem degenerate_duration_never_completes throws now s :
  is_nan (_duration (animator s)) = true
  \/ (num_lt (_duration (animator s)) 0
      /\ num_le 0 (now - JS.ToNumber (_animationStartTime (animator s)))) ->
  JS.strict_eq (_getAnimationCompletionCoefficient now (animator s)) 1 = false
  /\ (fst (_animationFrame throws now s) = Normal ->
      _animationStartTime (animator (snd (_animationFrame throws now s)))
      = _animationStartTime (animator s)
      /\ _requestAnimationFrameID (animator (snd (_animationFrame throws now s)))
         = Some (next_handle (window s))
      /\ pending (window (snd (_animationFrame throws now s)))
         = pending (window s) ++ [next_handle (window s)]).
Proof.
  intros H.
  assert (Hc : JS.strict_eq (_getAnimationCompletionCoefficient now (animator s)) 1
               = false).
  { unfold _getAnimationCompletionCoefficient.
    rewrite NumberFacts.Math_min_eq_one.
    set (x := now - JS.ToNumber (_animationStartTime (animator s))) in *.
    assert (Hr : (x / _duration (animator s) <? 1) = true
                 \/ is_nan (x / _duration (animator s)) = true).
    { destruct H as [Hnan | [Hneg Hx]].
      - right. revert Hnan. unfold is_nan.
        rewrite !eqb_spec, div_spec.
        destruct (Prim2SF (_duration (animator s))) as [[]|[]| |[] ? ?];
          cbn [SFeqb SFcompare]; rewrite ?Z.compare_refl, ?Pos.compare_cont_refl;
          try discriminate.
        intros _. destruct (Prim2SF x); reflexivity.
      - apply NumberFacts.div_neg; assumption. }
    destruct Hr as [Hr | Hr].
    - apply NumberFacts.ltb_not_leb. exact Hr.
    - destruct (1 <=? x / _duration (animator s)) eqn:E; [|reflexivity].
      destruct (NumberFacts.leb_not_nan _ _ E) as [_ Hnn].
      unfold is_nan in Hr. rewrite Hnn in Hr. discriminate Hr. }
  split; [exact Hc|]. intros Hn.
  rewrite (frame_normal throws now s Hn). cbn [snd animator window].
  rewrite (proj2 (after_frame_cases _ (animator s) (window s)) Hc).
  repeat split.
Qed.

Lemma degenerate_duration_never_completes_witness :
  (num_lt (-128) 0 /\ num_le 0 (1000000 - 0))
  /\ _getAnimationCompletionCoefficient 1000000
       (mkAnimator (-128) [0%nat] (Some 0) (Some 1%positive)) = (-7812.5)
  /\ pending (window (snd (_animationFrame quiet 1000000
       (mkWorld (mkAnimator (-128) [0%nat] (Some 0) (Some 1%positive))
                (mkWindow [] 2%positive) [])))) = [2%positive].
Proof.
  destruct (degenerate_duration_never_completes quiet 1000000
              (mkWorld (mkAnimator (-128) [0%nat] (Some 0) (Some 1%positive))
                       (mkWindow [] 2%positive) [])
              (or_intror (conj eq_refl eq_refl))) as (_ & Hend).
  destruct (Hend eq_refl) as (_ & _ & Hpend).
  split; [split; reflexivity|]. split; [reflexivity | exact Hpend].
Defined.

(** With the duration [+0] a frame at a clock reading after the start
    divides by zero: the quotient is infinite, the coefficient is [1], and
    the run completes on its first such frame. *)
Theorem zero_duration_completes_at_once throws now s :
  _duration (animator s) = 0 ->
  num_lt 0 (now - JS.ToNumber (_animationStartTime (animator s))) ->
  _getAnimationCompletionCoefficient now (animator s) = 1
  /\ (fst (_animationFrame throws now s) = Normal ->
      _animationStartTime (animator (snd (_animationFrame throws now s))) = None
      /\ _requestAnimationFrameID (animator (snd (_animationFrame throws now s)))
         = None
      /\ window (snd (_animationFrame throws now s)) = window s).
Proof.
  intros Hd Hx.
  assert (Hc : _getAnimationCompletionCoefficient now (animator s) = 1).
  { unfold _getAnimationCompletionCoefficient. rewrite Hd.
    apply NumberFacts.Math_min_ge, NumberFacts.div_zero. exact Hx. }
  split; [exact Hc|]. intros Hn.
  rewrite (frame_normal throws now s Hn), Hc. cbn [snd animator window].
  repeat split.
Qed.

Lemma zero_duration_completes_at_once_witness :
  num_lt 0 (16 - 0)
  /\ _getAnimationCompletionCoefficient 16
       (mkAnimator 0 [0%nat] (Some 0) (Some 1%positive)) = 1.
Proof.
  split; [reflexivity|].
  exact (proj1 (zero_duration_completes_at_once quiet 16
           (mkWorld (mkAnimator 0 [0%nat] (Some 0) (Some 1%positive))
                    (mkWindow [] 2%positive) []) eq_refl eq_refl)).
Defined.

(** ** Whole lives of an animator *)

Lemma frame_not_above throws now s :
  Forall not_above_one (coefficients (calls s)) ->
  Forall not_above_one (coefficients (calls (snd (_animationFrame throws now s)))).
Proof.
  intros H. destruct (frame_calls throws now s) as (k & _ & ->).
  unfold coefficients. rewrite map_app. apply Forall_app. split; [exact H|].
  rewrite map_map. cbn [snd]. apply Forall_forall. intros c Hc.
  apply in_map_iff in Hc. destruct Hc as (cb & <- & _).
  apply NumberFacts.Math_min_not_above.
Qed.

Lemma run_not_above throws : forall es s s',
  Forall not_above_one (coefficients (calls s)) ->
  run throws s es = Some s' ->
  Forall not_above_one (coefficients (calls s')).
Proof.
  induction es as [|e es IH]; intros s s' H Hrun; cbn [run] in Hrun.
  - injection Hrun as <-. exact H.
  - destruct (step throws s e) as [s1|] eqn:Hstep; [|discriminate].
    apply (IH s1 s'); [|exact Hrun].
    destruct e as [cb|d|now|h now];
      unfold step, startAnimation, requestAnimationFrame in Hstep.
    + injection Hstep as <-. exact H.
    + injection Hstep as <-. exact H.
    + injection Hstep as <-. exact H.
    + destruct (in_dec Pos.eq_dec h (pending (window s))); [|discriminate].
      injection Hstep as <-. apply frame_not_above. exact H.
Qed.

(** Whatever the durations, the clock readings and the callbacks are, no
    coefficient above [1] is ever passed to a callback: in every state an
    animator can reach from its construction, every invocation made so far
    received a value that is not greater than [1]. *)
Theorem coefficient_never_above_one throws es s :
  run throws init es = Some s ->
  Forall not_above_one (coefficients (calls s)).
Proof.
  intros Hrun. apply (run_not_above throws es init s); [constructor | exact Hrun].
Qed.

Lemma coefficient_never_above_one_witness :
  option_map (fun s => coefficients (calls s))
    (run quiet init
       [CallAddCallback 0; CallSetDuration (-128); CallStartAnimation 0;
        DispatchFrame 1 16; CallSetDuration 8; DispatchFrame 2 32])
  = Some [(-0.125); 1]
  /\ Forall not_above_one [(-0.125); 1].
Proof.
  split; [reflexivity|].
  exact (coefficient_never_above_one quiet
           [CallAddCallback 0; CallSetDuration (-128); CallStartAnimation 0;
            DispatchFrame 1 16; CallSetDuration 8; DispatchFrame 2 32] _ eq_refl).
Defined.

Lemma step_configuration throws s e s' :
  step throws s e = Some s' ->
  _callbacks (animator s') = _callbacks (animator s) ++ registered [e]
  /\ _duration (animator s') = duration_after (_duration (animator s)) [e].
Proof.
  intros Hstep. destruct e as [cb|d|now|h now];
    unfold step, startAnimation, requestAnimationFrame in Hstep.
  - injection Hstep as <-. split; reflexivity.
  - injection Hstep as <-. cbn. rewrite app_nil_r. split; reflexivity.
  - injection Hstep as <-. cbn. rewrite app_nil_r. split; reflexivity.
  - destruct (in_dec Pos.eq_dec h (pending (window s))); [|discriminate].
    injection Hstep as <-.
    destruct (frame_callbacks throws now (dispatch h s)) as [-> ->].
    cbn. rewrite app_nil_r. split; reflexivity.
Qed.

(** Only [addCallback] and [setDuration] configure the animator: after any
    sequence of calls and frames, the callbacks are the ones there were at
    the beginning followed by the ones registered since, in the order of
    registration (none is removed, moved or added by a frame or a start),
    and the duration is the last one that was set, or the one at the
    beginning when none was. *)
Theorem configuration_after_run throws es : forall s s',
  run throws s es = Some s' ->
  _callbacks (animator s') = _callbacks (animator s) ++ registered es
  /\ _duration (animator s') = duration_after (_duration (animator s)) es.
Proof.
  induction es as [|e es IH]; intros s s' Hrun; cbn [run] in Hrun.
  - injection Hrun as <-. cbn. rewrite app_nil_r. split; reflexivity.
  - destruct (step throws s e) as [s1|] eqn:Hstep; [|discriminate].
    destruct (IH s1 s' Hrun) as [Hc Hd].
    destruct (step_configuration throws s e s1 Hstep) as [Hc1 Hd1].
    rewrite Hc, Hc1, Hd, Hd1, <- app_assoc.
    destruct e; split; reflexivity.
Qed.

Lemma configuration_after_run_witness :
  option_map (fun s => (_callbacks (animator s), _duration (animator s)))
    (run second_throws init
       [CallAddCallback 3; CallSetDuration 50; CallStartAnimation 0;
        CallAddCallback 4; DispatchFrame 1 10; CallSetDuration 80;
        CallAddCallback 3])
  = Some ([3; 4; 3]%nat, 80).
Proof.
  destruct (run second_throws init
       [CallAddCallback 3; CallSetDuration 50; CallStartAnimation 0;
        CallAddCallback 4; DispatchFrame 1 10; CallSetDuration 80;
        CallAddCallback 3]) as [s|] eqn:E; [|discriminate E].
  destruct (configuration_after_run second_throws _ init s E) as [Hc Hd].
  cbn [option_map]. rewrite Hc, Hd. reflexivity.
Defined.

Lemma NoDup_remove_pos (h : handle) l :
  NoDup l -> NoDup (remove Pos.eq_dec h l).
Proof.
  induction l as [|x l IH]; intros H; cbn [remove]; [constructor|].
  inversion H as [|x' l' Hx Hl]; subst.
  destruct (Pos.eq_dec h x); [apply IH; exact Hl|].
  constructor; [|apply IH; exact Hl].
  intros Hin. apply in_remove in Hin. apply Hx. apply Hin.
Qed.

Lemma handles_tracked_request (a : Animator) w log d cbs st :
  handles_tracked (mkWorld a w log) ->
  handles_tracked
    (mkWorld (mkAnimator d cbs st (Some (next_handle w)))
             (mkWindow (pending w ++ [next_handle w]) (Pos.succ (next_handle w)))
             log).
Proof.
  intros (Hnd & Hlt & _). cbn [window animator pending next_handle] in *.
  unfold handles_tracked. cbn [window animator pending next_handle
                               _requestAnimationFrameID].
  rewrite Forall_forall in Hlt. split; [|split].
  - apply NoDup_app; [exact Hnd | constructor; [intros []|constructor] |].
    intros x Hx [E|[]]. subst x. specialize (Hlt _ Hx). lia.
  - apply Forall_app. split.
    + apply Forall_forall. intros x Hx. specialize (Hlt x Hx). lia.
    + constructor; [lia | constructor].
  - intros h Hh. injection Hh as <-. reflexivity.
Qed.

Lemma step_handles_tracked throws s e s' :
  handles_tracked s -> step throws s e = Some s' -> handles_tracked s'.
Proof.
  intros Ht Hstep. destruct s as [a w log].
  destruct e as [cb|d|now|h now];
    unfold step, startAnimation, requestAnimationFrame in Hstep;
    cbn [animator window calls] in Hstep.
  - injection Hstep as <-. exact Ht.
  - injection Hstep as <-. exact Ht.
  - injection Hstep as <-. apply (handles_tracked_request a). exact Ht.
  - destruct (in_dec Pos.eq_dec h (pending w)); [|discriminate].
    injection Hstep as <-.
    assert (Hd : handles_tracked (dispatch h (mkWorld a w log))).
    { destruct Ht as (Hnd & Hlt & Hid). unfold handles_tracked, dispatch.
      cbn [window animator pending next_handle] in *. split; [|split].
      - apply NoDup_remove_pos. exact Hnd.
      - rewrite Forall_forall in *. intros x Hx. apply in_remove in Hx.
        apply Hlt. apply Hx.
      - exact Hid. }
    unfold _animationFrame.
    set (s0 := dispatch h (mkWorld a w log)) in *.
    destruct (forEach throws _ _ _) as [[] l]; cbn [snd].
    + destruct (after_frame_cases
                  (_getAnimationCompletionCoefficient now (animator s0))
                  (animator s0) (window s0)) as [Hc Hn].
      destruct (JS.strict_eq (_getAnimationCompletionCoefficient now (animator s0)) 1).
      * rewrite (Hc eq_refl). destruct Hd as (Hnd & Hlt & _).
        split; [exact Hnd|]. split; [exact Hlt|]. intros h' Hh'. discriminate Hh'.
      * rewrite (Hn eq_refl).
        apply (handles_tracked_request (animator s0) (window s0) (calls s0)).
        destruct s0. exact Hd.
    + destruct Hd as (Hnd & Hlt & Hid). split; [exact Hnd|]. split; assumption.
Qed.

(** The animator keeps track of the host's handles: in every state reached
    from its construction the pending requests have distinct handles, and
    the handle stored in [_requestAnimationFrameID], when there is one, is
    the handle of the last request that was made; after overlapping starts
    the older pending requests are named by no field. *)
Theorem handles_stay_tracked throws es : forall s,
  run throws init es = Some s -> handles_tracked s.
Proof.
  assert (H : forall es s s', handles_tracked s -> run throws s es = Some s' ->
                              handles_tracked s').
  { clear es. induction es as [|e es IH]; intros s s' Ht Hrun; cbn [run] in Hrun.
    - injection Hrun as <-. exact Ht.
    - destruct (step throws s e) as [s1|] eqn:Hstep; [|discriminate].
      apply (IH s1 s'); [|exact Hrun].
      apply (step_handles_tracked throws s e s1 Ht Hstep). }
  intros s Hrun. apply (H es init s); [|exact Hrun].
  split; [constructor|]. split; [constructor|]. intros h Hh. discriminate Hh.
Qed.

Lemma handles_stay_tracked_witness :
  run quiet init
    [CallStartAnimation 0; CallStartAnimation 10; DispatchFrame 1 50]
  = Some (mkWorld (mkAnimator 200 [] (Some 10) (Some 3%positive))
                  (mkWindow [2%positive; 3%positive] 4%positive) [])
  /\ handles_tracked
       (mkWorld (mkAnimator 200 [] (Some 10) (Some 3%positive))
                (mkWindow [2%positive; 3%positive] 4%positive) []).
Proof.
  split; [reflexivity|].
  exact (handles_stay_tracked quiet
           [CallStartAnimation 0; CallStartAnimation 10; DispatchFrame 1 50]
           _ eq_refl).
Defined.

Lemma frame_pending_length throws h now s :
  In h (pending (window s)) ->
  length (pending (window (snd (_animationFrame throws now (dispatch h s)))))
  <= length (pending (window s)).
Proof.
  intros Hin.
  pose proof (remove_length_lt Pos.eq_dec (pending (window s)) h Hin) as Hlt.
  unfold _animationFrame.
  destruct (forEach throws _ _ _) as [[] l]; cbn [snd window dispatch pending].
  - unfold _afterAnimationFrame, requestAnimationFrame.
    destruct (JS.strict_eq _ _); cbn [snd fst window pending dispatch];
      rewrite ?length_app; cbn [length]; unfold handle in *; lia.
  - unfold handle in *. lia.
Qed.

(** Frames do not multiply: dispatching a frame never leaves more requests
    pending than there were, so the number of pending requests never
    exceeds the number of [startAnimation] calls made since construction. *)
Theorem pending_bounded_by_starts throws es : forall s,
  run throws init es = Some s ->
  length (pending (window s)) <= starts es.
Proof.
  assert (H : forall es s s', run throws s es = Some s' ->
              length (pending (window s')) <= length (pending (window s)) + starts es).
  { clear es. induction es as [|e es IH]; intros s s' Hrun; cbn [run] in Hrun.
    - injection Hrun as <-. cbn. lia.
    - destruct (step throws s e) as [s1|] eqn:Hstep; [|discriminate].
      specialize (IH s1 s' Hrun).
      destruct e as [cb|d|now|h now];
        unfold step, startAnimation, requestAnimationFrame in Hstep;
        cbn [starts].
      + injection Hstep as <-. exact IH.
      + injection Hstep as <-. exact IH.
      + injection Hstep as <-. cbn [window pending] in IH.
        rewrite length_app in IH. cbn [length] in IH. lia.
      + destruct (in_dec Pos.eq_dec h (pending (window s))) as [Hin|]; [|discriminate].
        injection Hstep as <-.
        pose proof (frame_pending_length throws h now s Hin). lia. }
  intros s Hrun. specialize (H es init s Hrun). cbn in H. exact H.
Qed.

Lemma pending_bounded_by_starts_witness :
  option_map (fun s => length (pending (window s)))
    (run quiet init
       [CallStartAnimation 0; CallStartAnimation 10; DispatchFrame 1 50;
        DispatchFrame 2 60; DispatchFrame 3 70; DispatchFrame 4 400])
  = Some 1%nat
  /\ (1 <= 2)%nat.
Proof.
  split; [reflexivity|].
  exact (pending_bounded_by_starts quiet
           [CallStartAnimation 0; CallStartAnimation 10; DispatchFrame 1 50;
            DispatchFrame 2 60; DispatchFrame 3 70; DispatchFrame 4 400]
           _ eq_refl).
Defined.

Lemma idle_queue_run throws : forall es s s',
  pending (window s) = [] -> starts es = 0%nat ->
  run throws s es = Some s' ->
  calls s' = calls s /\ window s' = window s
  /\ _animationStartTime (animator s') = _animationStartTime (animator s)
  /\ _requestAnimationFrameID (animator s') = _requestAnimationFrameID (animator s).
Proof.
  induction es as [|e es IH]; intros s s' Hp Hs Hrun; cbn [run] in Hrun.
  - injection Hrun as <-. repeat split.
  - destruct (step throws s e) as [s1|] eqn:Hstep; [|discriminate].
    destruct e as [cb|d|now|h now]; cbn [starts] in Hs; try discriminate;
      unfold step in Hstep.
    + injection Hstep as <-.
      apply (IH (mkWorld (addCallback cb (animator s)) (window s) (calls s)) s'
                Hp Hs Hrun).
    + injection Hstep as <-.
      apply (IH (mkWorld (setDuration d (animator s)) (window s) (calls s)) s'
                Hp Hs Hrun).
    + destruct (in_dec Pos.eq_dec h (pending (window s))) as [Hin|]; [|discriminate].
      rewrite Hp in Hin. destruct Hin.
Qed.

Lemma idle_queue_no_frame throws : forall es s s',
  pending (window s) = [] -> starts es = 0%nat ->
  run throws s es = Some s' ->
  forall h now, ~ In (DispatchFrame h now) es.
Proof.
  induction es as [|e es IH]; intros s s' Hp Hs Hrun h now Hin; [destruct Hin|].
  cbn [run] in Hrun.
  destruct (step throws s e) as [s1|] eqn:Hstep; [|discriminate].
  destruct e as [cb|d|now'|h' now']; cbn [starts] in Hs; try discriminate;
    unfold step in Hstep.
  - injection Hstep as <-. destruct Hin as [E|Hin]; [discriminate E|].
    apply (IH (mkWorld (addCallback cb (animator s)) (window s) (calls s)) s'
              Hp Hs Hrun h now Hin).
  - injection Hstep as <-. destruct Hin as [E|Hin]; [discriminate E|].
    apply (IH (mkWorld (setDuration d (animator s)) (window s) (calls s)) s'
              Hp Hs Hrun h now Hin).
  - destruct (in_dec Pos.eq_dec h' (pending (window s))) as [Hin'|]; [|discriminate].
    rewrite Hp in Hin'. destruct Hin'.
Qed.

(** While no frame request is pending nothing happens until
    [startAnimation] is called: no frame can be dispatched, and whatever
    callbacks are registered and durations set, no callback is invoked, no
    frame is requested, and start time and handle stay as they are. *)
Theorem nothing_pending_nothing_happens throws es s s' :
  pending (window s) = [] -> starts es = 0%nat ->
  run throws s es = Some s' ->
  (forall h now, ~ In (DispatchFrame h now) es)
  /\ calls s' = calls s /\ window s' = window s
  /\ _animationStartTime (animator s') = _animationStartTime (animator s)
  /\ _requestAnimationFrameID (animator s') = _requestAnimationFrameID (animator s).
Proof.
  intros Hp Hs Hrun. split.
  - apply (idle_queue_no_frame throws es s s' Hp Hs Hrun).
  - apply (idle_queue_run throws es s s' Hp Hs Hrun).
Qed.

Lemma nothing_pending_nothing_happens_witness :
  pending (window scenario) = []
  /\ starts [CallAddCallback 5; CallSetDuration 10; CallAddCallback 6] = 0%nat
  /\ option_map calls
       (run always_throws scenario
          [CallAddCallback 5; CallSetDuration 10; CallAddCallback 6])
     = Some [].
Proof.
  split; [reflexivity|]. split; [reflexivity|].
  destruct (run always_throws scenario
              [CallAddCallback 5; CallSetDuration 10; CallAddCallback 6])
    as [s'|] eqn:E; [|discriminate E].
  destruct (nothing_pending_nothing_happens always_throws
              [CallAddCallback 5; CallSetDuration 10; CallAddCallback 6]
              scenario s' eq_refl eq_refl E) as (_ & Hc & _).
  cbn [option_map]. rewrite Hc. reflexivity.
Defined.

(** A callback that throws halts the run without ending it: when the one
    pending frame of a run ends by an exception, the start time stays set
    although nothing is pending, and until [startAnimation] is called again
    no callback is invoked any more. *)
Theorem throw_halts_run throws h now s es s' :
  pending (window s) = [h] ->
  fst (_animationFrame throws now (dispatch h s)) = Throw ->
  starts es = 0%nat ->
  run throws s (DispatchFrame h now :: es) = Some s' ->
  calls s' = calls (snd (_animationFrame throws now (dispatch h s)))
  /\ pending (window s') = []
  /\ _animationStartTime (animator s') = _animationStartTime (animator s)
  /\ _requestAnimationFrameID (animator s') = _requestAnimationFrameID (animator s).
Proof.
  intros Hp Hthrow Hs Hrun. cbn [run step] in Hrun. rewrite Hp in Hrun.
  destruct (in_dec Pos.eq_dec h [h]) as [_|Hn]; [|destruct Hn; left; reflexivity].
  assert (Hfr : snd (_animationFrame throws now (dispatch h s))
                = mkWorld (animator s) (mkWindow [] (next_handle (window s)))
                          (calls (snd (_animationFrame throws now (dispatch h s))))).
  { revert Hthrow. unfold _animationFrame.
    destruct (forEach throws _ _ _) as [[] l]; cbn [fst snd].
    - destruct (_afterAnimationFrame _ _ _). discriminate.
    - intros _. cbn [dispatch animator window calls pending next_handle].
      rewrite Hp. cbn [remove]. destruct (Pos.eq_dec h h); [reflexivity|congruence]. }
  destruct (idle_queue_run throws es _ s' (f_equal (fun w => pending (window w)) Hfr)
              Hs Hrun) as (Hc & Hw & Hst & Hid).
  rewrite Hc, Hw, Hst, Hid, Hfr. repeat split.
Qed.

Lemma throw_halts_run_witness :
  pending (window scenario_pending) = [1%positive]
  /\ fst (_animationFrame always_throws 16 (dispatch 1%positive scenario_pending))
     = Throw
  /\ option_map (fun s => (calls s, pending (window s),
                           _animationStartTime (animator s)))
       (run always_throws scenario_pending
          [DispatchFrame 1 16; CallAddCallback 9; CallSetDuration 50])
     = Some ([(0%nat, 16 / 100)], [], Some 0).
Proof.
  split; [reflexivity|]. split; [reflexivity|].
  destruct (run always_throws scenario_pending
              [DispatchFrame 1 16; CallAddCallback 9; CallSetDuration 50])
    as [s'|] eqn:E; [|discriminate E].
  destruct (throw_halts_run always_throws 1%positive 16 scenario_pending
              [CallAddCallback 9; CallSetDuration 50] s'
              eq_refl eq_refl eq_refl E) as (Hc & Hp & Hst & _).
  cbn [option_map]. rewrite Hc, Hp, Hst. reflexivity.
Defined.
